(** * Newsletter SQS processor: the reconciliation engine

    A shallow embedding of
    [lambdas/src/newsletter-sqs-processor/app/newsletter_sqs_processor_lambda.py]
    and the properties of its subscribe / unsubscribe state machine and of
    its batch handler.

    The Python module talks to four collaborators that are not part of the
    repository: the DynamoDB table (boto3), the wall clock
    ([datetime.utcnow]), the identifier generator ([uuid4]) and the message
    decoder ([json.loads] followed by the pydantic constructor of
    [OperationMessage] on the decoded dict).  The table is modelled
    concretely, as the list of its items; the other three are oracles
    gathered in [Env]. *)

From stdpp Require Import gmap strings list fin_maps.

Open Scope string_scope.
Open Scope list_scope.
Open Scope nat_scope.
Open Scope stdpp_scope.

(** ** Data model *)

(** A DynamoDB attribute value, as far as this program stores them:
    strings, integers (epoch seconds) and NULL (Python [None], which is what
    [name] holds when the intent carries none). *)
Inductive attr : Type :=
  | AStr (s : string)
  | ANum (n : Z)
  | ANull.

Global Instance attr_eq_dec : EqDecision attr.
Proof. solve_decision. Defined.

(** An item is a Python dict from attribute names to values. *)
Abbreviation item := (gmap string attr).

(** The table is the list of its items, in the order in which the
    [email-index] hands them out.  DynamoDB keeps the primary key [id]
    unique; [wf_table] states it.  The index is read as up to date with the
    table and as projecting every attribute of an item. *)
Abbreviation table_t := (list item).

Definition key_of (it : item) : option attr := it !! "id".

Definition wf_table (t : table_t) : Prop :=
  Forall (λ it : item, is_Some (key_of it)) t ∧ NoDup (key_of <$> t).

Global Instance wf_table_dec (t : table_t) : Decision (wf_table t).
Proof. unfold wf_table. apply _. Defined.

(** [class OperationMessage(BaseModel)] *)
Record OperationMessage := mkMessage {
  operation : string;
  email : string;
  name : option string;
  ip_address : string;
  user_agent : string;
  timestamp : Z;
}.

Definition with_timestamp (ts : Z) (m : OperationMessage) : OperationMessage :=
  {| operation := operation m; email := email m; name := name m;
     ip_address := ip_address m; user_agent := user_agent m;
     timestamp := ts |}.

(** The two exception classes that [lambda_handler] tells apart.  Both
    carry [str(e)]. *)
Inductive exn : Type :=
  | ValidationError (msg : string)
  | Exception (msg : string).

Inductive result (A : Type) : Type :=
  | Ok (a : A)
  | Raise (e : exn).
Arguments Ok {A} a.
Arguments Raise {A} e.

(** A call on [subscribers_table], as a mock of the table would record it. *)
Inductive store_call : Type :=
  | Query (email_key : string)
  | UpdateItem (key : attr) (sets : list (string * attr))
  | PutItem (it : item).

Definition is_write (c : store_call) : bool :=
  match c with
  | Query _ => false
  | UpdateItem _ _ | PutItem _ => true
  end.

Definition writes (l : list store_call) : list store_call :=
  List.filter is_write l.

(** The collaborators outside the repository.  [utcnow k] is the [k]-th
    reading of the clock, [uuid4 k] the [k]-th identifier drawn,
    [store_fault k] tells whether the [k]-th call on the table fails (and
    with which message), and [parse_message] stands for [json.loads] on the
    body followed by the construction of the [OperationMessage]. *)
Record Env := mkEnv {
  utcnow : nat → Z;
  uuid4 : nat → string;
  store_fault : nat → option string;
  parse_message : option string → result OperationMessage;
}.

(** What a run of the engine changes: the table, how often the clock and
    the identifier generator were asked, and the calls made on the table
    (oldest first). *)
Record World := mkWorld {
  table : table_t;
  ticks : nat;
  drawn : nat;
  log : list store_call;
}.

Definition log_call (c : store_call) (w : World) : World :=
  {| table := table w; ticks := ticks w; drawn := drawn w;
     log := log w ++ [c] |}.

Definition with_table (t : table_t) (w : World) : World :=
  {| table := t; ticks := ticks w; drawn := drawn w; log := log w |}.

Definition tick (w : World) : World :=
  {| table := table w; ticks := S (ticks w); drawn := drawn w;
     log := log w |}.

Definition draw (w : World) : World :=
  {| table := table w; ticks := ticks w; drawn := S (drawn w);
     log := log w |}.

(** ** The state and exception monad *)

Definition M (A : Type) : Type := World → result A * World.

Definition ret {A} (a : A) : M A := λ w, (Ok a, w).

Definition raise {A} (e : exn) : M A := λ w, (Raise e, w).

Definition bind {A B} (c : M A) (k : A → M B) : M B :=
  λ w, match c w with
       | (Ok a, w') => k a w'
       | (Raise e, w') => (Raise e, w')
       end.

(** [try: c except ... as e: h e]; what [c] did to the world before it
    raised stays done. *)
Definition try_except {A} (c : M A) (h : exn → M A) : M A :=
  λ w, match c w with
       | (Ok a, w') => (Ok a, w')
       | (Raise e, w') => h e w'
       end.

Notation "x <- c ;; k" := (bind c (λ x, k))
  (at level 100, c at next level, right associativity).
Notation "c ;;; k" := (bind c (λ _, k))
  (at level 100, right associativity).

(** ** The table *)

(** The items the [email-index] returns for
    [KeyConditionExpression=Key('email').eq(e)]: those that carry the
    attribute [email] with the string [e]. *)
Definition email_index (t : table_t) (e : string) : list item :=
  filter (λ it : item, it !! "email" = Some (AStr e)) t.

Global Arguments email_index : simpl never.

(** [SET a1 = v1, a2 = v2, ...] on one item. *)
Definition apply_sets (sets : list (string * attr)) (it : item) : item :=
  foldl (λ acc kv, <[kv.1 := kv.2]> acc) it sets.

(** [update_item(Key={'id': k}, UpdateExpression='SET ...')]: the item with
    that key is changed in place; without one, DynamoDB creates the item
    from the key and the assignments (no ConditionExpression is given). *)
Fixpoint update_item_in (k : attr) (sets : list (string * attr))
    (t : table_t) : table_t :=
  match t with
  | [] => [apply_sets sets {[ "id" := k ]}]
  | it :: t' =>
      if decide (key_of it = Some k) then apply_sets sets it :: t'
      else it :: update_item_in k sets t'
  end.

(** [put_item(Item=new)]: replaces the item with the same key, or adds it. *)
Fixpoint put_item_in (k : attr) (new : item) (t : table_t) : table_t :=
  match t with
  | [] => [new]
  | it :: t' =>
      if decide (key_of it = Some k) then new :: t'
      else it :: put_item_in k new t'
  end.

(** ** The shape of a batch and of its result *)

(** One entry of [event['Records']], a dict as the SQS trigger delivers
    it; both keys are read with [.get]. *)
Record SqsRecord := mkRecord {
  receiptHandle : option string;
  body : option string;
}.

Record Event := mkEvent {
  Records : option (list SqsRecord);
}.

(** An entry of [failed_messages]. *)
Record FailedMessage := mkFailed {
  receipt_handle : option string;
  error : string;
}.

(** The three local variables of [lambda_handler]. *)
Record Counters := mkCounters {
  processed_count : nat;
  failed_count : nat;
  failed_messages : list FailedMessage;
}.

Definition no_counts : Counters :=
  {| processed_count := 0; failed_count := 0; failed_messages := [] |}.

Definition count_processed (c : Counters) : Counters :=
  {| processed_count := S (processed_count c);
     failed_count := failed_count c;
     failed_messages := failed_messages c |}.

Definition count_failed (c : Counters) : Counters :=
  {| processed_count := processed_count c;
     failed_count := S (failed_count c);
     failed_messages := failed_messages c |}.

Definition record_failure (h : option string) (msg : string) (c : Counters)
    : Counters :=
  {| processed_count := processed_count c;
     failed_count := failed_count c;
     failed_messages := failed_messages c ++ [mkFailed h msg] |}.

(** The dict that [lambda_handler] returns. *)
Module Response.
Record t := mk {
  statusCode : Z;
  processed : nat;
  failed : nat;
  failed_messages : list FailedMessage;
}.
End Response.

Section Engine.

Variable env : Env.

(** Every call on the table is logged, then fails if the fault schedule
    says so (leaving the table as it was), then takes effect. *)
Definition store_call_begin (c : store_call) : M unit :=
  λ w,
    match store_fault env (length (log w)) with
    | Some msg => (Raise (Exception msg), log_call c w)
    | None => (Ok tt, log_call c w)
    end.

Definition set_table (t : table_t) : M unit :=
  λ w, (Ok tt, with_table t w).

Definition get_table : M table_t := λ w, (Ok (table w), w).

Definition table_query (e : string) : M (list item) :=
  store_call_begin (Query e) ;;;
  t <- get_table ;;
  ret (email_index t e).

Definition table_update_item (k : attr) (sets : list (string * attr))
    : M unit :=
  store_call_begin (UpdateItem k sets) ;;;
  t <- get_table ;;
  set_table (update_item_in k sets t).

Definition table_put_item (new : item) : M unit :=
  store_call_begin (PutItem new) ;;;
  match key_of new with
  | None => raise (Exception "ValidationException: missing key id")
  | Some k =>
      t <- get_table ;;
      set_table (put_item_in k new t)
  end.

(** [int(datetime.utcnow().timestamp())] *)
Definition current_time : M Z :=
  λ w, (Ok (utcnow env (ticks w)), tick w).

(** [str(uuid4())] *)
Definition fresh_uuid : M string :=
  λ w, (Ok (uuid4 env (drawn w)), draw w).

(** ** The engine *)

(** Truth value of a dict: empty is false. *)
Definition dict_truthy (it : item) : bool := negb (bool_decide (it = ∅)).

(** [d[k]], raising [KeyError] *)
Definition getitem (it : item) (k : string) : M attr :=
  match it !! k with
  | Some v => ret v
  | None => raise (Exception ("'" +:+ k +:+ "'"))
  end.

(** [query_subscriber_by_email]: the handler of its [try] logs and
    re-raises. *)
Definition query_subscriber_by_email (e : string) : M (option item) :=
  try_except
    (items <- table_query e ;;
     ret (match items with
          | it :: _ => Some it
          | [] => None
          end))
    (λ err, raise err).

Definition py_name (n : option string) : attr :=
  match n with
  | Some s => AStr s
  | None => ANull
  end.

Definition new_subscriber (subscriber_id : string) (message : OperationMessage)
    (current_timestamp : Z) : item :=
  <[ "id" := AStr subscriber_id ]>
  (<[ "email" := AStr (email message) ]>
  (<[ "name" := py_name (name message) ]>
  (<[ "status" := AStr "active" ]>
  (<[ "subscribed_at" := ANum current_timestamp ]>
  (<[ "updated_at" := ANum current_timestamp ]>
  (<[ "ip_address" := AStr (ip_address message) ]>
  (<[ "user_agent" := AStr (user_agent message) ]> ∅))))))).

(** What Python's [if existing_subscriber:] lets through. *)
Definition found (o : option item) : option item :=
  match o with
  | Some it => if dict_truthy it then Some it else None
  | None => None
  end.

Definition process_subscribe_operation (message : OperationMessage) : M unit :=
  current_timestamp <- current_time ;;
  existing_subscriber <- query_subscriber_by_email (email message) ;;
  match found existing_subscriber with
  | Some sub =>
      subscriber_id <- getitem sub "id" ;;
      let current_status := default (AStr "inactive") (sub !! "status") in
      if decide (current_status = AStr "inactive") then
        table_update_item subscriber_id
          [("status", AStr "active"); ("updated_at", ANum current_timestamp)]
      else
        table_update_item subscriber_id
          [("updated_at", ANum current_timestamp)]
  | None =>
      subscriber_id <- fresh_uuid ;;
      table_put_item (new_subscriber subscriber_id message current_timestamp)
  end.

Definition process_unsubscribe_operation (message : OperationMessage) : M unit :=
  current_timestamp <- current_time ;;
  existing_subscriber <- query_subscriber_by_email (email message) ;;
  match found existing_subscriber with
  | Some sub =>
      subscriber_id <- getitem sub "id" ;;
      table_update_item subscriber_id
        [("status", AStr "inactive"); ("updated_at", ANum current_timestamp)]
  | None => ret tt
  end.

(** ** The batch handler *)

(** [json.loads(message_body)] and the construction of the
    [OperationMessage]; neither touches the world. *)
Definition decode (message_body : option string) : M OperationMessage :=
  λ w, (parse_message env message_body, w).

(** The body of the [try] for one record, after decoding.  The third
    branch is [failed_count += 1; continue]. *)
Definition dispatch (c : Counters) (operation_message : OperationMessage)
    : M Counters :=
  if decide (operation operation_message = "subscribe") then
    process_subscribe_operation operation_message ;;;
    ret (count_processed c)
  else if decide (operation operation_message = "unsubscribe") then
    process_unsubscribe_operation operation_message ;;;
    ret (count_processed c)
  else
    ret (count_failed c).

(** One turn of [for record in event.get('Records', [])]. *)
Definition handle_record (record : SqsRecord) (c : Counters) : M Counters :=
  let receipt_handle := receiptHandle record in
  let message_body := body record in
  try_except
    (operation_message <- decode message_body ;;
     dispatch c operation_message)
    (λ e, match e with
          | ValidationError msg =>
              ret (record_failure receipt_handle msg (count_failed c))
          | Exception msg =>
              ret (record_failure receipt_handle msg (count_failed c))
          end).

Fixpoint for_each_record (records : list SqsRecord) (c : Counters)
    : M Counters :=
  match records with
  | [] => ret c
  | record :: rest =>
      c' <- handle_record record c ;;
      for_each_record rest c'
  end.

Definition lambda_handler (event : Event) : M Response.t :=
  c <- for_each_record (default [] (Records event)) no_counts ;;
  ret {| Response.statusCode := 200;
         Response.processed := processed_count c;
         Response.failed := failed_count c;
         Response.failed_messages := failed_messages c |}.

End Engine.

(** ** The admin handlers on the same table

    [lambdas/src/newsletter-api-admin/app/handlers/subscribers.py] reads
    and writes the table of the engine from another Lambda, with its own
    client and its own clock.  Its collaborators outside the repository
    are gathered in [AdminEnv]: [time_time k] is the [k]-th reading of
    [time.time()], [admin_fault k] tells whether the [k]-th call of this
    client is refused, [int_other] is Python's [int()] on a value that is
    not a number, and [validate_subscriber] is the pydantic constructor of
    [Subscriber]. *)

(** [class Subscriber(BaseModel)] *)
Module Subscriber.
Record t := mk {
  id : string;
  email : string;
  name : string;
  status : string;
  subscribed_at : Z;
  updated_at : Z;
  ip_address : string;
  user_agent : string;
}.
End Subscriber.

(** The keyword arguments that [item_to_subscriber] hands to the
    constructor. *)
Module SubscriberArgs.
Record t := mk {
  id : attr;
  email : attr;
  name : attr;
  status : attr;
  subscribed_at : Z;
  updated_at : Z;
  ip_address : attr;
  user_agent : attr;
}.
End SubscriberArgs.

Record AdminEnv := mkAdminEnv {
  time_time : nat → Z;
  admin_fault : nat → option string;
  int_other : attr → result Z;
  validate_subscriber : SubscriberArgs.t → result Subscriber.t;
}.

Inductive admin_call : Type :=
  | GetItem (key : attr)
  | UpdateItemAllNew (key : attr) (sets : list (string * attr))
  | DeleteItem (key : attr).

Record AdminWorld := mkAdminWorld {
  admin_table : table_t;
  admin_ticks : nat;
  admin_log : list admin_call;
}.

Definition AM (A : Type) : Type := AdminWorld → result A * AdminWorld.

Definition aret {A} (a : A) : AM A := λ aw, (Ok a, aw).

Definition araise {A} (e : exn) : AM A := λ aw, (Raise e, aw).

Definition abind {A B} (c : AM A) (k : A → AM B) : AM B :=
  λ aw, match c aw with
        | (Ok a, aw') => k a aw'
        | (Raise e, aw') => (Raise e, aw')
        end.

(** [try: c except Exception as e: logger.error(...); raise] *)
Definition reraising {A} (c : AM A) : AM A :=
  λ aw, match c aw with
        | (Ok a, aw') => (Ok a, aw')
        | (Raise e, aw') => araise e aw'
        end.

Notation "x <~ c ;; k" := (abind c (λ x, k))
  (at level 100, c at next level, right associativity).

(** [get_item(Key={'id': k})]: the item with that key, if there is one. *)
Fixpoint get_item_in (k : attr) (t : table_t) : option item :=
  match t with
  | [] => None
  | it :: t' =>
      if decide (key_of it = Some k) then Some it else get_item_in k t'
  end.

(** [delete_item(Key={'id': k})]: the item with that key goes; without
    one, nothing happens. *)
Fixpoint delete_item_in (k : attr) (t : table_t) : table_t :=
  match t with
  | [] => []
  | it :: t' =>
      if decide (key_of it = Some k) then t' else it :: delete_item_in k t'
  end.

Section Admin.

Variable aenv : AdminEnv.

Definition admin_call_begin (c : admin_call) : AM unit :=
  λ aw,
    let aw' := {| admin_table := admin_table aw;
                  admin_ticks := admin_ticks aw;
                  admin_log := admin_log aw ++ [c] |} in
    match admin_fault aenv (length (admin_log aw)) with
    | Some msg => (Raise (Exception msg), aw')
    | None => (Ok tt, aw')
    end.

Definition admin_get_item (k : attr) : AM (option item) :=
  _ <~ admin_call_begin (GetItem k) ;;
  λ aw, (Ok (get_item_in k (admin_table aw)), aw).

(** [update_item(..., ReturnValues='ALL_NEW')] answers with the item as it
    is after the update. *)
Definition admin_update_item (k : attr) (sets : list (string * attr))
    : AM (option item) :=
  _ <~ admin_call_begin (UpdateItemAllNew k sets) ;;
  λ aw,
    let t' := update_item_in k sets (admin_table aw) in
    (Ok (get_item_in k t'),
     {| admin_table := t'; admin_ticks := admin_ticks aw;
        admin_log := admin_log aw |}).

Definition admin_delete_item (k : attr) : AM unit :=
  _ <~ admin_call_begin (DeleteItem k) ;;
  λ aw,
    (Ok tt,
     {| admin_table := delete_item_in k (admin_table aw);
        admin_ticks := admin_ticks aw; admin_log := admin_log aw |}).

(** [int(time.time())] *)
Definition admin_time : AM Z :=
  λ aw, (Ok (time_time aenv (admin_ticks aw)),
         {| admin_table := admin_table aw;
            admin_ticks := S (admin_ticks aw);
            admin_log := admin_log aw |}).

(** [d[k]], raising [KeyError] *)
Definition admin_getitem (it : item) (k : string) : AM attr :=
  match it !! k with
  | Some v => aret v
  | None => araise (Exception ("'" +:+ k +:+ "'"))
  end.

(** [int(v)]: a stored number is taken as it is. *)
Definition py_int (v : attr) : AM Z :=
  match v with
  | ANum n => aret n
  | _ => λ aw, (int_other aenv v, aw)
  end.

Definition subscriber_args (it : item) : AM SubscriberArgs.t :=
  id <~ admin_getitem it "id" ;;
  email <~ admin_getitem it "email" ;;
  subscribed_at <~ py_int (default (ANum 0) (it !! "subscribed_at")) ;;
  updated_at <~ py_int (default (ANum 0) (it !! "updated_at")) ;;
  aret {| SubscriberArgs.id := id;
          SubscriberArgs.email := email;
          SubscriberArgs.name := default (AStr "") (it !! "name");
          SubscriberArgs.status :=
            default (AStr "inactive") (it !! "status");
          SubscriberArgs.subscribed_at := subscribed_at;
          SubscriberArgs.updated_at := updated_at;
          SubscriberArgs.ip_address :=
            default (AStr "") (it !! "ip_address");
          SubscriberArgs.user_agent :=
            default (AStr "") (it !! "user_agent") |}.

Definition item_to_subscriber (it : item) : AM Subscriber.t :=
  args <~ subscriber_args it ;;
  λ aw, (validate_subscriber aenv args, aw).

Definition get_subscriber_by_id (subscriber_id : string)
    : AM (option Subscriber.t) :=
  reraising
    (response <~ admin_get_item (AStr subscriber_id) ;;
     match response with
     | None => aret None
     | Some it =>
         subscriber <~ item_to_subscriber it ;;
         aret (Some subscriber)
     end).

Definition update_subscriber_email (subscriber_id new_email : string)
    : AM (option Subscriber.t) :=
  reraising
    (existing <~ get_subscriber_by_id subscriber_id ;;
     match existing with
     | None => aret None
     | Some _ =>
         current_timestamp <~ admin_time ;;
         response <~ admin_update_item (AStr subscriber_id)
                       [("email", AStr new_email);
                        ("updated_at", ANum current_timestamp)] ;;
         match response with
         | None => araise (Exception "'Attributes'")
         | Some it =>
             updated_subscriber <~ item_to_subscriber it ;;
             aret (Some updated_subscriber)
         end
     end).

Definition delete_subscriber (subscriber_id : string) : AM bool :=
  reraising
    (existing <~ get_subscriber_by_id subscriber_id ;;
     match existing with
     | None => aret false
     | Some _ =>
         _ <~ admin_delete_item (AStr subscriber_id) ;;
         aret true
     end).

End Admin.

(** ** Vocabulary of the statements *)

(** The next [n] calls on the table, counted from the state [w], succeed. *)
Definition calls_succeed (env : Env) (w : World) (n : nat) : Prop :=
  ∀ k, k < n → store_fault env (length (log w) + k) = None.

(** The email resolves to no record, or to one whose status is inactive. *)
Definition absent_or_inactive (w : World) (e : string) : Prop :=
  match head (email_index (table w) e) with
  | None => True
  | Some sub => sub !! "status" = Some (AStr "inactive")
  end.

(** The values that a call on the table stores under [subscribed_at] or
    [updated_at]. *)
Definition is_stamp (a : string) : bool :=
  bool_decide (a = "subscribed_at") || bool_decide (a = "updated_at").

Definition call_stamps (c : store_call) : list attr :=
  match c with
  | Query _ => []
  | UpdateItem _ sets => (List.filter (λ kv, is_stamp kv.1) sets).*2
  | PutItem it => omap (λ a, it !! a) ["subscribed_at"; "updated_at"]
  end.

(** Every timestamp that the calls [calls] store is [now]. *)
Definition stamped_with (now : Z) (calls : list store_call) : Prop :=
  Forall (λ c, Forall (λ v, v = ANum now) (call_stamps c)) calls.

(** [str(e)] *)
Definition exn_message (e : exn) : string :=
  match e with
  | ValidationError msg => msg
  | Exception msg => msg
  end.

(** The store answers every call. *)
Definition reliable (env : Env) : Prop := ∀ k, store_fault env k = None.

Definition known_operation (m : OperationMessage) : Prop :=
  operation m = "subscribe" ∨ operation m = "unsubscribe".

(** What applying the intent [m] means for the two known operations. *)
Definition process_operation (env : Env) (m : OperationMessage) : M unit :=
  if decide (operation m = "subscribe") then process_subscribe_operation env m
  else process_unsubscribe_operation env m.

(** [n] deliveries of the same subscribe intent, one after the other. *)
Fixpoint replay (env : Env) (n : nat) (m : OperationMessage) : M unit :=
  match n with
  | 0 => ret tt
  | S n' => process_subscribe_operation env m ;;; replay env n' m
  end.

(** The update that [update_item_in] makes when the key is there. *)
Definition update_if_key (k : attr) (sets : list (string * attr)) (it : item)
    : item :=
  if decide (key_of it = Some k) then apply_sets sets it else it.

(** The next [n] calls of the admin client, counted from [aw], succeed. *)
Definition admin_calls_succeed (aenv : AdminEnv) (aw : AdminWorld) (n : nat)
    : Prop :=
  ∀ k, k < n → admin_fault aenv (length (admin_log aw) + k) = None.

(** An admin world that holds the table [t]. *)
Definition admin_world_of (t : table_t) : AdminWorld :=
  {| admin_table := t; admin_ticks := 0; admin_log := [] |}.

(** What [item_to_subscriber] returns for the item; it does not depend on
    the world. *)
Definition subscriber_of (aenv : AdminEnv) (it : item) : result Subscriber.t :=
  (item_to_subscriber aenv it (admin_world_of [])).1.

Definition admin_logged (c : admin_call) (aw : AdminWorld) : AdminWorld :=
  {| admin_table := admin_table aw; admin_ticks := admin_ticks aw;
     admin_log := admin_log aw ++ [c] |}.

(** ** What one intent can do to the table *)

(** The three lists of assignments that the engine passes to
    [update_item]: reactivation, touch, deactivation. *)
Definition engine_sets (now : Z) : list (list (string * attr)) :=
  [ [("status", AStr "active"); ("updated_at", ANum now)];
    [("updated_at", ANum now)];
    [("status", AStr "inactive"); ("updated_at", ANum now)] ].

(** One intent leaves the table alone, puts a new record for an email that
    the index does not know, or updates the record that the index returns
    first. *)
Inductive engine_step (t : table_t) : table_t → Prop :=
  | engine_same : engine_step t t
  | engine_create (sid : string) (m : OperationMessage) (now : Z) :
      email_index t (email m) = [] →
      engine_step t (put_item_in (AStr sid) (new_subscriber sid m now) t)
  | engine_update (e : string) (sub : item) (rest : list item) (k : attr)
        (now : Z) (sets : list (string * attr)) :
      email_index t e = sub :: rest →
      key_of sub = Some k →
      sets ∈ engine_sets now →
      engine_step t (update_item_in k sets t).

(** No email is carried by two records. *)
Definition unique_emails (t : table_t) : Prop :=
  ∀ e : string, length (email_index t e) ≤ 1.

(** From [w] to [w1] the clock was read and an identifier drawn at most
    [n] times each, and the table was called at most [2 * n] times, at most
    [n] of them writes. *)
Definition within_budget (n : nat) (w w1 : World) : Prop :=
  ticks w ≤ ticks w1 ∧ ticks w1 ≤ ticks w + n
  ∧ drawn w ≤ drawn w1 ∧ drawn w1 ≤ drawn w + n
  ∧ ∃ calls, log w1 = log w ++ calls
             ∧ length calls ≤ 2 * n ∧ length (writes calls) ≤ n.

(** ** How a record of a batch is classified *)

Definition is_known (m : OperationMessage) : bool :=
  bool_decide (operation m = "subscribe")
  || bool_decide (operation m = "unsubscribe").

(** The body decodes, to an operation that is neither of the two. *)
Definition unknown (env : Env) (r : SqsRecord) : bool :=
  match parse_message env (body r) with
  | Ok m => negb (is_known m)
  | Raise _ => false
  end.

(** The entry of [failed_messages] for a body that does not decode. *)
Definition decode_failure (env : Env) (r : SqsRecord) : option FailedMessage :=
  match parse_message env (body r) with
  | Ok _ => None
  | Raise e => Some (mkFailed (receiptHandle r) (exn_message e))
  end.

(** The intent of a record, when its body decodes to a known operation. *)
Definition known_message (env : Env) (r : SqsRecord)
    : option OperationMessage :=
  match parse_message env (body r) with
  | Ok m => if is_known m then Some m else None
  | Raise _ => None
  end.

(** The intents [ms] applied one after the other, stopping at the first
    exception. *)
Fixpoint apply_all (env : Env) (ms : list OperationMessage) : M unit :=
  match ms with
  | [] => ret tt
  | m :: ms' => process_operation env m ;;; apply_all env ms'
  end.

(** ** The batch as the specification words it *)

(** One record handled in isolation, following the words of the
    specification and not the control flow of the handler: a payload that
    does not decode, and an intent whose processing raises, become an entry
    of [failed_messages] and a failure; an operation that is neither
    [subscribe] nor [unsubscribe] is a failure that touches nothing; an
    intent that is applied is counted as processed.  In every case the
    outcome is a new pair of counters and world, never an exception. *)
Definition isolated_step (env : Env) (st : Counters * World) (r : SqsRecord)
    : Counters * World :=
  match parse_message env (body r) with
  | Raise e =>
      (record_failure (receiptHandle r) (exn_message e) (count_failed st.1),
       st.2)
  | Ok m =>
      if is_known m then
        match process_operation env m st.2 with
        | (Ok _, w1) => (count_processed st.1, w1)
        | (Raise e, w1) =>
            (record_failure (receiptHandle r) (exn_message e)
               (count_failed st.1), w1)
        end
      else (count_failed st.1, st.2)
  end.

(** Every record of the batch is attempted, in order, whatever happened to
    the records before it. *)
Definition isolated_batch (env : Env) (records : list SqsRecord) (w : World)
    : Counters * World :=
  foldl (isolated_step env) (no_counts, w) records.

(** The result object for the final counters. *)
Definition response_of (c : Counters) : Response.t :=
  {| Response.statusCode := 200;
     Response.processed := processed_count c;
     Response.failed := failed_count c;
     Response.failed_messages := failed_messages c |}.

(** ** A concrete environment and some runs *)

Module Demo.

Definition msg (op e : string) (ts : Z) : OperationMessage :=
  {| operation := op; email := e; name := Some "A";
     ip_address := "1.1.1.1"; user_agent := "UA"; timestamp := ts |}.

(** A decoder for three bodies; every other body is not JSON. *)
Definition parse (b : option string) : result OperationMessage :=
  match b with
  | None =>
      Raise (Exception
        "the JSON object must be str, bytes or bytearray, not NoneType")
  | Some s =>
      if decide (s = "sub a@x.com") then Ok (msg "subscribe" "a@x.com" 1000)
      else if decide (s = "unsub a@x.com") then
        Ok (msg "unsubscribe" "a@x.com" 1000)
      else if decide (s = "sub b@x.com") then
        Ok (msg "subscribe" "b@x.com" 1000)
      else if decide (s = "purge a@x.com") then
        Ok (msg "purge" "a@x.com" 1000)
      else if decide (s = "sub not-an-email") then
        Raise (ValidationError "1 validation error for OperationMessage")
      else Raise (Exception "Expecting value: line 1 column 1 (char 0)")
  end.

Definition uuid (k : nat) : string :=
  match k with
  | 0 => "uuid-0"
  | 1 => "uuid-1"
  | _ => "uuid-n"
  end.

Definition env : Env :=
  {| utcnow := λ k, (5000 + Z.of_nat k)%Z; uuid4 := uuid;
     store_fault := λ _, None; parse_message := parse |}.

Definition world_of (t : table_t) : World :=
  {| table := t; ticks := 0; drawn := 0; log := [] |}.

Definition empty_world : World := world_of [].

(** A record as an earlier run of the engine leaves it. *)
Definition stored (sid e status : string) (since last : Z) : item :=
  <[ "id" := AStr sid ]>
  (<[ "email" := AStr e ]>
  (<[ "name" := AStr "A" ]>
  (<[ "status" := AStr status ]>
  (<[ "subscribed_at" := ANum since ]>
  (<[ "updated_at" := ANum last ]>
  (<[ "ip_address" := AStr "9.9.9.9" ]>
  (<[ "user_agent" := AStr "curl" ]> ∅))))))).

Definition other : item := stored "id-b" "b@x.com" "active" 50 60.
Definition inactive_a : item := stored "id-a" "a@x.com" "inactive" 100 200.
Definition active_a : item := stored "id-a" "a@x.com" "active" 100 200.
Definition twin_a : item := stored "id-a2" "a@x.com" "active" 300 400.

Definition subscribe_a : OperationMessage := msg "subscribe" "a@x.com" 1000.
Definition unsubscribe_a : OperationMessage :=
  msg "unsubscribe" "a@x.com" 1000.

(** Three deliveries, the second of which is not JSON. *)
Definition batch : Event :=
  {| Records := Some [ mkRecord (Some "h1") (Some "sub a@x.com");
                       mkRecord (Some "h2") (Some "{operation:");
                       mkRecord (Some "h3") (Some "sub b@x.com") ] |}.

(** Three deliveries: the lookup of the first is refused when the store
    is [env_failing_at 0], the second has an unknown operation, the third
    is in order. *)
Definition mixed_batch : Event :=
  {| Records := Some [ mkRecord (Some "h1") (Some "sub a@x.com");
                       mkRecord (Some "h2") (Some "purge a@x.com");
                       mkRecord (Some "h3") (Some "sub b@x.com") ] |}.

(** One delivery whose operation is neither of the two known ones. *)
Definition purge_batch : Event :=
  {| Records := Some [ mkRecord (Some "h1") (Some "purge a@x.com") ] |}.

(** The same environment, except that the [k]-th call on the table is
    refused. *)
Definition env_failing_at (k : nat) : Env :=
  {| utcnow := λ j, (5000 + Z.of_nat j)%Z; uuid4 := uuid;
     store_fault := λ j, if decide (j = k)
                         then Some "ProvisionedThroughputExceededException"
                         else None;
     parse_message := parse |}.

(** A stand-in for the pydantic constructor of [Subscriber]: every text
    field must hold a string and [status] one of the two literals. *)
Definition validate (a : SubscriberArgs.t) : result Subscriber.t :=
  match SubscriberArgs.id a, SubscriberArgs.email a, SubscriberArgs.name a,
        SubscriberArgs.status a, SubscriberArgs.ip_address a,
        SubscriberArgs.user_agent a with
  | AStr i, AStr e, AStr n, AStr st, AStr ip, AStr ua =>
      if decide (st = "active" ∨ st = "inactive") then
        Ok {| Subscriber.id := i; Subscriber.email := e;
              Subscriber.name := n; Subscriber.status := st;
              Subscriber.subscribed_at := SubscriberArgs.subscribed_at a;
              Subscriber.updated_at := SubscriberArgs.updated_at a;
              Subscriber.ip_address := ip; Subscriber.user_agent := ua |}
      else Raise (ValidationError "1 validation error for Subscriber")
  | _, _, _, _, _, _ =>
      Raise (ValidationError "1 validation error for Subscriber")
  end.

Definition aenv : AdminEnv :=
  {| time_time := λ k, (9000 + Z.of_nat k)%Z;
     admin_fault := λ _, None;
     int_other := λ _, Raise (Exception "int() argument of a wrong type");
     validate_subscriber := validate |}.

(** What [validate] makes of a record stored by [stored]. *)
Definition subscriber (sid e st : string) (since last : Z) : Subscriber.t :=
  {| Subscriber.id := sid; Subscriber.email := e; Subscriber.name := "A";
     Subscriber.status := st; Subscriber.subscribed_at := since;
     Subscriber.updated_at := last; Subscriber.ip_address := "9.9.9.9";
     Subscriber.user_agent := "curl" |}.

(** The store of this environment answers every call. *)
Lemma env_calls_succeed w n : calls_succeed env w n.
Proof. intros k _. reflexivity. Defined.

Lemma env_reliable : reliable env.
Proof. intros k. reflexivity. Defined.

Lemma aenv_calls_succeed aw n : admin_calls_succeed aenv aw n.
Proof. intros k _. reflexivity. Defined.

End Demo.
(** ** Items and tables *)

(** Closes [a ∉ sets.*1] for a literal list of assignments. *)
Ltac not_assigned :=
  cbn; repeat (apply not_elem_of_cons; split; [done|]); apply not_elem_of_nil.

Lemma apply_sets_lookup_ne (sets : list (string * attr)) (it : item) (a : string) :
  a ∉ sets.*1 → apply_sets sets it !! a = it !! a.
Proof.
  revert it. induction sets as [|[b v] sets IH]; intros it Hnot; [done|].
  change (apply_sets ((b, v) :: sets) it) with (apply_sets sets (<[b:=v]> it)).
  rewrite fmap_cons in Hnot. apply not_elem_of_cons in Hnot as [Hne Hnot].
  rewrite IH by done. by apply lookup_insert_ne.
Qed.

Lemma key_of_apply_sets (sets : list (string * attr)) (it : item) :
  "id" ∉ sets.*1 → key_of (apply_sets sets it) = key_of it.
Proof. apply apply_sets_lookup_ne. Qed.

Lemma key_of_new_subscriber sid m now :
  key_of (new_subscriber sid m now) = Some (AStr sid).
Proof. reflexivity. Qed.

Lemma email_index_nil_elem (t : table_t) (e : string) (it : item) :
  email_index t e = [] → it ∈ t → it !! "email" ≠ Some (AStr e).
Proof.
  intros Hnil Hin Hmail.
  assert (it ∈ email_index t e) as Hin' by (by apply list_elem_of_filter).
  rewrite Hnil in Hin'. by apply not_elem_of_nil in Hin'.
Qed.

Lemma email_index_head_truthy (t : table_t) (e : string) (it : item) rest :
  email_index t e = it :: rest → dict_truthy it = true.
Proof.
  intros Hidx.
  assert (it ∈ email_index t e) as Hin by (rewrite Hidx; left).
  apply list_elem_of_filter in Hin as [Hmail _].
  unfold dict_truthy. rewrite bool_decide_eq_false_2; [done|].
  intros ->. by rewrite lookup_empty in Hmail.
Qed.

Lemma email_index_head_elem (t : table_t) (e : string) (it : item) rest :
  email_index t e = it :: rest → it ∈ t ∧ it !! "email" = Some (AStr e).
Proof.
  intros Hidx.
  assert (it ∈ email_index t e) as Hin by (rewrite Hidx; left).
  apply list_elem_of_filter in Hin. tauto.
Qed.

Lemma writes_app (l1 l2 : list store_call) :
  writes (l1 ++ l2) = writes l1 ++ writes l2.
Proof. apply List.filter_app. Qed.

Lemma writes_query (l : list store_call) (e : string) :
  writes (l ++ [Query e]) = writes l.
Proof. rewrite writes_app. apply app_nil_r. Qed.

(** What [call_stamps] sees in the three kinds of call. *)
Example call_stamps_update :
  call_stamps (UpdateItem (AStr "id-a")
                 [("status", AStr "active"); ("updated_at", ANum 7)])
  = [ANum 7].
Proof. reflexivity. Qed.

Example call_stamps_put :
  call_stamps (PutItem Demo.active_a) = [ANum 100; ANum 200].
Proof. reflexivity. Qed.

Example call_stamps_query : call_stamps (Query "a@x.com") = [].
Proof. reflexivity. Qed.

(** ** Runs of the store calls and of the lookup *)

Section Runs.

Variable env : Env.

Lemma calls_succeed_now w n :
  calls_succeed env w (S n) → store_fault env (length (log w)) = None.
Proof. intros H. rewrite <- (Nat.add_0_r (length _)). apply H. lia. Qed.

Lemma calls_succeed_next w n c :
  calls_succeed env w (S n) → calls_succeed env (log_call c w) n.
Proof.
  intros H k Hk. cbn. rewrite length_app. cbn.
  replace (length (log w) + 1 + k) with (length (log w) + S k) by lia.
  apply H. lia.
Qed.

Lemma calls_succeed_same_log w w' n :
  log w' = log w → calls_succeed env w n → calls_succeed env w' n.
Proof. intros Hlog H k Hk. rewrite Hlog. by apply H. Qed.

Lemma calls_succeed_le w (n n' : nat) :
  n' ≤ n → calls_succeed env w n → calls_succeed env w n'.
Proof. intros Hle H k Hk. apply H. lia. Qed.

Lemma query_subscriber_by_email_ok e w :
  store_fault env (length (log w)) = None →
  query_subscriber_by_email env e w
  = (Ok (head (email_index (table w) e)), log_call (Query e) w).
Proof.
  intros H.
  unfold query_subscriber_by_email, try_except, table_query, bind,
    store_call_begin.
  by rewrite H.
Qed.

Lemma query_subscriber_by_email_fault e w msg :
  store_fault env (length (log w)) = Some msg →
  query_subscriber_by_email env e w
  = (Raise (Exception msg), log_call (Query e) w).
Proof.
  intros H.
  unfold query_subscriber_by_email, try_except, table_query, bind,
    store_call_begin.
  by rewrite H.
Qed.

Lemma table_update_item_ok k sets w :
  store_fault env (length (log w)) = None →
  table_update_item env k sets w
  = (Ok tt, with_table (update_item_in k sets (table w))
              (log_call (UpdateItem k sets) w)).
Proof.
  intros H. unfold table_update_item, bind, store_call_begin.
  by rewrite H.
Qed.

Lemma table_put_item_ok k new w :
  key_of new = Some k →
  store_fault env (length (log w)) = None →
  table_put_item env new w
  = (Ok tt, with_table (put_item_in k new (table w))
              (log_call (PutItem new) w)).
Proof.
  intros Hk H. unfold table_put_item, bind, store_call_begin.
  by rewrite H, Hk.
Qed.

(** The three rows of the subscribe half of the state machine, and the
    two of the unsubscribe half, as equations on runs. *)

Lemma subscribe_absent_run m w :
  email_index (table w) (email m) = [] →
  calls_succeed env w 2 →
  let new := new_subscriber (uuid4 env (drawn w)) m (utcnow env (ticks w)) in
  process_subscribe_operation env m w
  = (Ok tt,
     with_table (put_item_in (AStr (uuid4 env (drawn w))) new (table w))
       (log_call (PutItem new) (draw (log_call (Query (email m)) (tick w))))).
Proof.
  intros Habs Hok new.
  unfold process_subscribe_operation, bind at 1 2. cbn.
  rewrite query_subscriber_by_email_ok by (by eapply calls_succeed_now).
  cbn. rewrite Habs. cbn.
  erewrite table_put_item_ok; [done|done|].
  eapply (calls_succeed_now _ 0), calls_succeed_same_log;
    [|by eapply calls_succeed_next]. done.
Qed.

Lemma subscribe_found_run m w sub rest k :
  email_index (table w) (email m) = sub :: rest →
  key_of sub = Some k →
  calls_succeed env w 2 →
  let now := utcnow env (ticks w) in
  let sets :=
    if decide (default (AStr "inactive") (sub !! "status") = AStr "inactive")
    then [("status", AStr "active"); ("updated_at", ANum now)]
    else [("updated_at", ANum now)] in
  process_subscribe_operation env m w
  = (Ok tt,
     with_table (update_item_in k sets (table w))
       (log_call (UpdateItem k sets) (log_call (Query (email m)) (tick w)))).
Proof.
  intros Hidx Hk Hok now sets.
  unfold process_subscribe_operation, bind at 1 2. cbn.
  rewrite query_subscriber_by_email_ok by (by eapply calls_succeed_now).
  cbn. rewrite Hidx. cbn.
  rewrite (email_index_head_truthy _ _ _ _ Hidx).
  unfold getitem, bind at 1. unfold key_of in Hk. rewrite Hk. cbn.
  assert (store_fault env (length (log (log_call (Query (email m)) (tick w))))
          = None) as Hnext.
  { eapply (calls_succeed_now _ 0), calls_succeed_same_log;
      [|by eapply calls_succeed_next]. done. }
  subst sets. case_decide; by rewrite table_update_item_ok.
Qed.

Lemma unsubscribe_found_run m w sub rest k :
  email_index (table w) (email m) = sub :: rest →
  key_of sub = Some k →
  calls_succeed env w 2 →
  let sets := [("status", AStr "inactive");
               ("updated_at", ANum (utcnow env (ticks w)))] in
  process_unsubscribe_operation env m w
  = (Ok tt,
     with_table (update_item_in k sets (table w))
       (log_call (UpdateItem k sets) (log_call (Query (email m)) (tick w)))).
Proof.
  intros Hidx Hk Hok sets.
  unfold process_unsubscribe_operation, bind at 1 2. cbn.
  rewrite query_subscriber_by_email_ok by (by eapply calls_succeed_now).
  cbn. rewrite Hidx. cbn.
  rewrite (email_index_head_truthy _ _ _ _ Hidx).
  unfold getitem, bind at 1. unfold key_of in Hk. rewrite Hk. cbn.
  rewrite table_update_item_ok; [done|].
  eapply (calls_succeed_now _ 0), calls_succeed_same_log;
    [|by eapply calls_succeed_next]. done.
Qed.

Lemma unsubscribe_absent_run m w :
  email_index (table w) (email m) = [] →
  calls_succeed env w 1 →
  process_unsubscribe_operation env m w
  = (Ok tt, log_call (Query (email m)) (tick w)).
Proof.
  intros Habs Hok.
  unfold process_unsubscribe_operation, bind at 1 2. cbn.
  rewrite query_subscriber_by_email_ok by (by eapply calls_succeed_now).
  cbn. by rewrite Habs.
Qed.

(** Whatever the store does, an unsubscribe for an email that the index
    does not know leaves the table alone and issues no write. *)
Lemma unsubscribe_absent_frame m w :
  email_index (table w) (email m) = [] →
  table (process_unsubscribe_operation env m w).2 = table w
  ∧ writes (log (process_unsubscribe_operation env m w).2) = writes (log w).
Proof.
  intros Habs.
  unfold process_unsubscribe_operation, bind. cbn.
  destruct (store_fault env (length (log w))) as [msg|] eqn:Hf.
  - rewrite (query_subscriber_by_email_fault _ _ msg) by done.
    split; [done|]. apply writes_query.
  - rewrite query_subscriber_by_email_ok by done. cbn. rewrite Habs.
    split; [done|]. apply writes_query.
Qed.

End Runs.

(** ** The table operations on a well-formed table *)

Section Tables.

Implicit Types (t : table_t) (k : attr) (sets : list (string * attr)).

Lemma update_if_key_absent k sets t :
  Some k ∉ key_of <$> t → update_if_key k sets <$> t = t.
Proof.
  induction t as [|x t IH]; intros H; [done|].
  rewrite fmap_cons in H. apply not_elem_of_cons in H as [Hx Ht].
  rewrite fmap_cons, IH by done.
  unfold update_if_key. by rewrite decide_False by congruence.
Qed.

Lemma update_item_in_present k sets t :
  NoDup (key_of <$> t) → Some k ∈ key_of <$> t →
  update_item_in k sets t = update_if_key k sets <$> t.
Proof.
  induction t as [|x t IH]; intros Hnd Hin.
  - by apply elem_of_nil in Hin.
  - rewrite fmap_cons in Hnd, Hin. apply NoDup_cons in Hnd as [Hx Hnd].
    cbn [update_item_in]. rewrite fmap_cons. unfold update_if_key at 1.
    case_decide as Hkey.
    + rewrite update_if_key_absent; [done|]. by rewrite <- Hkey.
    + f_equal. apply IH; [done|].
      apply elem_of_cons in Hin as [Heq|Hin]; [congruence|done].
Qed.

Lemma key_of_update_if_key k sets (it : item) :
  "id" ∉ sets.*1 → key_of (update_if_key k sets it) = key_of it.
Proof.
  intros H. unfold update_if_key. case_decide; [|done].
  by apply key_of_apply_sets.
Qed.

Lemma keys_update_if_key k sets t :
  "id" ∉ sets.*1 → key_of <$> (update_if_key k sets <$> t) = key_of <$> t.
Proof.
  intros H. rewrite <- list_fmap_compose. apply list_fmap_ext.
  intros i x _. by apply key_of_update_if_key.
Qed.

Lemma wf_table_update k sets t :
  "id" ∉ sets.*1 → wf_table t → Some k ∈ key_of <$> t →
  wf_table (update_item_in k sets t).
Proof.
  intros Hid [Hall Hnd] Hin. rewrite update_item_in_present by done.
  split.
  - apply Forall_fmap. eapply Forall_impl; [exact Hall|].
    intros x Hx. cbn. by rewrite key_of_update_if_key.
  - by rewrite keys_update_if_key.
Qed.

Lemma email_index_update k sets t e :
  "email" ∉ sets.*1 →
  email_index (update_if_key k sets <$> t) e
  = update_if_key k sets <$> email_index t e.
Proof.
  intros Hmail. unfold email_index.
  induction t as [|x t IH]; [done|].
  rewrite fmap_cons.
  assert (update_if_key k sets x !! "email" = x !! "email") as Hsame.
  { unfold update_if_key. case_decide; [|done].
    by apply apply_sets_lookup_ne. }
  rewrite !filter_cons, Hsame.
  case_decide; [rewrite fmap_cons|]; by rewrite IH.
Qed.

Lemma keys_put_item_in k (new : item) t :
  key_of new = Some k →
  key_of <$> put_item_in k new t
  = if decide (Some k ∈ key_of <$> t) then key_of <$> t
    else (key_of <$> t) ++ [Some k].
Proof.
  intros Hnew. induction t as [|x t IH].
  - cbn. rewrite decide_False by apply not_elem_of_nil. by rewrite Hnew.
  - cbn [put_item_in]. rewrite !fmap_cons.
    destruct (decide (key_of x = Some k)) as [Hkey|Hkey].
    + rewrite fmap_cons, Hnew, Hkey.
      rewrite decide_True; [done|left].
    + rewrite fmap_cons, IH.
      destruct (decide (Some k ∈ key_of <$> t)) as [Hin|Hnin].
      * rewrite decide_True; [done|by right].
      * rewrite decide_False; [done|].
        apply not_elem_of_cons. split; [congruence|done].
Qed.

Lemma put_item_in_fresh k (new : item) t :
  Some k ∉ key_of <$> t → put_item_in k new t = t ++ [new].
Proof.
  induction t as [|x t IH]; intros H; [done|].
  rewrite fmap_cons in H. apply not_elem_of_cons in H as [Hx Ht].
  cbn [put_item_in]. rewrite decide_False by congruence.
  by rewrite IH.
Qed.

Lemma put_item_in_has_keys k (new : item) t :
  key_of new = Some k →
  Forall (λ it : item, is_Some (key_of it)) t →
  Forall (λ it : item, is_Some (key_of it)) (put_item_in k new t).
Proof.
  intros Hnew. induction 1 as [|x t Hx Ht IH]; cbn [put_item_in].
  - constructor; [by rewrite Hnew|constructor].
  - case_decide; constructor; try done. all: by rewrite ?Hnew.
Qed.

Lemma wf_table_put k (new : item) t :
  key_of new = Some k → wf_table t → wf_table (put_item_in k new t).
Proof.
  intros Hnew [Hall Hnd]. split; [by apply put_item_in_has_keys|].
  rewrite keys_put_item_in by done. case_decide as Hin; [done|].
  apply NoDup_app. split; [done|]. split.
  - intros y Hy Hy'. apply list_elem_of_singleton in Hy'. by subst.
  - apply NoDup_singleton.
Qed.

Lemma email_index_put_absent k (new : item) t e :
  email_index t e = [] → new !! "email" = Some (AStr e) →
  email_index (put_item_in k new t) e = [new].
Proof.
  unfold email_index. intros Habs Hnew.
  induction t as [|x t IH]; cbn [put_item_in].
  - by rewrite filter_cons_True.
  - rewrite filter_cons in Habs.
    destruct (decide (x !! "email" = Some (AStr e))); [done|].
    case_decide.
    + by rewrite filter_cons_True, Habs.
    + rewrite filter_cons_False by done. by apply IH.
Qed.

Lemma wf_table_key_elem t (it : item) k :
  it ∈ t → key_of it = Some k → Some k ∈ key_of <$> t.
Proof. intros Hin <-. by apply list_elem_of_fmap_2. Qed.

End Tables.

(** ** One update on a well-formed table *)

Lemma NoDup_fmap_elem_inj {A B} (f : A → B) (l : list A) (x y : A) :
  NoDup (f <$> l) → x ∈ l → y ∈ l → f x = f y → x = y.
Proof.
  induction l as [|z l IH]; intros Hnd Hx Hy Hf.
  - by apply elem_of_nil in Hx.
  - rewrite fmap_cons in Hnd. apply NoDup_cons in Hnd as [Hz Hnd].
    apply elem_of_cons in Hx as [->|Hx]; apply elem_of_cons in Hy as [->|Hy].
    + done.
    + exfalso. apply Hz. rewrite Hf. by apply list_elem_of_fmap_2.
    + exfalso. apply Hz. rewrite <- Hf. by apply list_elem_of_fmap_2.
    + by apply IH.
Qed.

Lemma update_on_wf_table (t : table_t) (sub : item) k sets :
  wf_table t → sub ∈ t → key_of sub = Some k →
  update_item_in k sets t = update_if_key k sets <$> t
  ∧ length (update_item_in k sets t) = length t
  ∧ apply_sets sets sub ∈ update_item_in k sets t
  ∧ ∀ it : item, it ∈ t → it ≠ sub →
      update_if_key k sets it = it ∧ it ∈ update_item_in k sets t.
Proof.
  intros [Hall Hnd] Hin Hk.
  assert (update_item_in k sets t = update_if_key k sets <$> t) as ->.
  { apply update_item_in_present; [done|]. by eapply wf_table_key_elem. }
  split; [done|]. split; [by rewrite length_fmap|]. split.
  - apply list_elem_of_fmap. exists sub. split; [|done].
    unfold update_if_key. by rewrite decide_True.
  - intros it Hit Hne.
    assert (update_if_key k sets it = it) as Hsame.
    { unfold update_if_key. case_decide as Hkey; [|done].
      destruct Hne. eapply (NoDup_fmap_elem_inj key_of); [done..|congruence]. }
    split; [done|]. apply list_elem_of_fmap. exists it. by rewrite Hsame.
Qed.


Lemma updated_world_facts (w : World) (e : string) k sets (sub : item) rest :
  wf_table (table w) →
  email_index (table w) e = sub :: rest →
  key_of sub = Some k →
  let w' := with_table (update_item_in k sets (table w))
              (log_call (UpdateItem k sets) (log_call (Query e) (tick w))) in
  log w' = log w ++ [Query e; UpdateItem k sets]
  ∧ table w' = update_if_key k sets <$> table w
  ∧ length (table w') = length (table w)
  ∧ apply_sets sets sub ∈ table w'
  ∧ ∀ it : item, it ∈ table w → it ≠ sub → it ∈ table w'.
Proof.
  intros Hwf Hidx Hk w'.
  apply email_index_head_elem in Hidx as [Hin _].
  destruct (update_on_wf_table (table w) sub k sets Hwf Hin Hk)
    as (Heq & Hlen & Hsub & Hrest).
  split; [cbn; by rewrite <- app_assoc|].
  repeat split; try done.
  intros it Hit Hne. by apply Hrest.
Qed.

(** ** The subscribe half of the state machine *)



(** C4.  A subscribe intent whose email resolves to a record with
    [status = inactive] makes the engine issue one lookup and one
    [update_item] on the key of that record, setting [status] to [active]
    and [updated_at] to the clock reading of this run.  The table keeps its
    length (no record is created), the record keeps its [id], its
    [subscribed_at] and every attribute other than [status] and
    [updated_at], and every other record stays as it was. *)
Theorem subscribe_inactive_reactivates (env : Env) (m : OperationMessage)
    (w : World) (sub : item) (rest : list item) (k : attr) :
  wf_table (table w) →
  email_index (table w) (email m) = sub :: rest →
  key_of sub = Some k →
  sub !! "status" = Some (AStr "inactive") →
  calls_succeed env w 2 →
  let now := utcnow env (ticks w) in
  let sets := [("status", AStr "active"); ("updated_at", ANum now)] in
  let sub' := apply_sets sets sub in
  let r := process_subscribe_operation env m w in
  r.1 = Ok tt
  ∧ log r.2 = log w ++ [Query (email m); UpdateItem k sets]
  ∧ table r.2 = update_if_key k sets <$> table w
  ∧ length (table r.2) = length (table w)
  ∧ sub' ∈ table r.2
  ∧ (∀ it : item, it ∈ table w → it ≠ sub → it ∈ table r.2)
  ∧ key_of sub' = Some k
  ∧ sub' !! "status" = Some (AStr "active")
  ∧ sub' !! "updated_at" = Some (ANum now)
  ∧ sub' !! "subscribed_at" = sub !! "subscribed_at"
  ∧ ∀ a : string, a ≠ "status" → a ≠ "updated_at" → sub' !! a = sub !! a.
Proof.
  intros Hwf Hidx Hk Hst Hok now sets sub' r.
  subst r. rewrite (subscribe_found_run env m w sub rest k) by done.
  rewrite Hst. cbn [default]. rewrite decide_True by done.
  cbn [fst snd].
  destruct (updated_world_facts w (email m) k sets sub rest Hwf Hidx Hk)
    as (Hlog & Htab & Hlen & Hsub & Hrest).
  split; [done|]. split; [exact Hlog|]. split; [exact Htab|].
  split; [exact Hlen|]. split; [exact Hsub|]. split; [exact Hrest|].
  split.
  { rewrite <- Hk. apply key_of_apply_sets. not_assigned. }
  split.
  { subst sub' sets. cbn. rewrite lookup_insert_ne by done.
    apply lookup_insert_eq. }
  split; [subst sub' sets; cbn; apply lookup_insert_eq|].
  split; [apply apply_sets_lookup_ne; not_assigned|].
  intros a Ha1 Ha2. apply apply_sets_lookup_ne. not_assigned.
Qed.

Lemma subscribe_inactive_reactivates_witness :
  let w := Demo.world_of [Demo.other; Demo.inactive_a] in
  let r := process_subscribe_operation Demo.env Demo.subscribe_a w in
  (wf_table (table w) ∧ email_index (table w) "a@x.com" = [Demo.inactive_a])
  ∧ r.1 = Ok tt
  ∧ table r.2 = [Demo.other; Demo.stored "id-a" "a@x.com" "active" 100 5000].
Proof.
  intros w r.
  assert (wf_table (table w)) as Hwf by compute_done.
  assert (email_index (table w) (email Demo.subscribe_a) = [Demo.inactive_a])
    as Hidx by compute_done.
  pose proof (subscribe_inactive_reactivates Demo.env Demo.subscribe_a w
                Demo.inactive_a [] (AStr "id-a") Hwf Hidx eq_refl eq_refl
                (Demo.env_calls_succeed _ 2)) as (H1 & _ & H3 & _).
  split; [by split|]. split; [exact H1|].
  etrans; [exact H3|]. compute_done.
Defined.

(** C5.  A subscribe intent whose email resolves to a record with
    [status = active] makes the engine issue one lookup and a single write,
    an [update_item] on the key of that record whose only assignment is
    [updated_at]: [status], [subscribed_at], [email], [name], [ip_address],
    [user_agent] and every other attribute of the record are unchanged, and
    so is every other record. *)
Theorem subscribe_active_touches_updated_at (env : Env) (m : OperationMessage)
    (w : World) (sub : item) (rest : list item) (k : attr) :
  wf_table (table w) →
  email_index (table w) (email m) = sub :: rest →
  key_of sub = Some k →
  sub !! "status" = Some (AStr "active") →
  calls_succeed env w 2 →
  let now := utcnow env (ticks w) in
  let sub' := <[ "updated_at" := ANum now ]> sub in
  let r := process_subscribe_operation env m w in
  r.1 = Ok tt
  ∧ writes (log r.2)
    = writes (log w) ++ [UpdateItem k [("updated_at", ANum now)]]
  ∧ table r.2 = update_if_key k [("updated_at", ANum now)] <$> table w
  ∧ sub' ∈ table r.2
  ∧ (∀ it : item, it ∈ table w → it ≠ sub → it ∈ table r.2)
  ∧ sub' !! "updated_at" = Some (ANum now)
  ∧ (∀ a : string, a ≠ "updated_at" → sub' !! a = sub !! a)
  ∧ sub' !! "status" = sub !! "status"
  ∧ sub' !! "subscribed_at" = sub !! "subscribed_at"
  ∧ sub' !! "email" = sub !! "email"
  ∧ sub' !! "name" = sub !! "name"
  ∧ sub' !! "ip_address" = sub !! "ip_address"
  ∧ sub' !! "user_agent" = sub !! "user_agent".
Proof.
  intros Hwf Hidx Hk Hst Hok now sub' r.
  subst r. rewrite (subscribe_found_run env m w sub rest k) by done.
  rewrite Hst. cbn [default]. rewrite decide_False by done.
  cbn [fst snd].
  destruct (updated_world_facts w (email m) k [("updated_at", ANum now)]
              sub rest Hwf Hidx Hk) as (Hlog & Htab & Hlen & Hsub & Hrest).
  split; [done|]. split.
  { etrans; [exact (f_equal writes Hlog)|]. by rewrite writes_app. }
  split; [exact Htab|]. split; [exact Hsub|]. split; [exact Hrest|].
  split; [by apply lookup_insert_eq|].
  split; [by intros a Ha; apply lookup_insert_ne|].
  repeat split; subst sub'; by rewrite lookup_insert_ne.
Qed.

Lemma subscribe_active_touches_updated_at_witness :
  let w := Demo.world_of [Demo.other; Demo.active_a] in
  let r := process_subscribe_operation Demo.env Demo.subscribe_a w in
  (wf_table (table w) ∧ email_index (table w) "a@x.com" = [Demo.active_a])
  ∧ r.1 = Ok tt
  ∧ table r.2 = [Demo.other; Demo.stored "id-a" "a@x.com" "active" 100 5000].
Proof.
  intros w r.
  assert (wf_table (table w)) as Hwf by compute_done.
  assert (email_index (table w) (email Demo.subscribe_a) = [Demo.active_a])
    as Hidx by compute_done.
  pose proof (subscribe_active_touches_updated_at Demo.env Demo.subscribe_a w
                Demo.active_a [] (AStr "id-a") Hwf Hidx eq_refl eq_refl
                (Demo.env_calls_succeed _ 2)) as (H1 & _ & H3 & _).
  split; [by split|]. split; [exact H1|].
  etrans; [exact H3|]. compute_done.
Defined.

(** ** The unsubscribe half of the state machine *)

(** C1, as the specification has it, fails: the record of [a@x.com] is
    already inactive, and the unsubscribe intent still makes the engine
    call [update_item], which moves [updated_at] from 200 to 5000. *)
Lemma unsubscribe_inactive_still_writes :
  let w := Demo.world_of [Demo.inactive_a] in
  let r := process_unsubscribe_operation Demo.env Demo.unsubscribe_a w in
  absent_or_inactive w "a@x.com"
  ∧ r.1 = Ok tt
  ∧ writes (log r.2)
    = [UpdateItem (AStr "id-a")
         [("status", AStr "inactive"); ("updated_at", ANum 5000)]]
  ∧ table r.2 = [Demo.stored "id-a" "a@x.com" "inactive" 100 5000]
  ∧ ¬ (writes (log r.2) = writes (log w) ∧ table r.2 = table w).
Proof.
  intros w r.
  split; [compute_done|]. split; [compute_done|].
  split; [compute_done|]. split; [compute_done|].
  intros [Hw _]. vm_compute in Hw. discriminate Hw.
Qed.

(** C1, amended.  An unsubscribe intent for an email that the index does
    not know issues no write and leaves the table as it is, whether the
    lookup succeeds (the run then returns normally) or fails (the
    exception of the store is raised).  An unsubscribe intent whose email
    resolves to an inactive record issues one [update_item] on the key of
    that record, assigning [status = inactive] and [updated_at = now]: of
    the record only [updated_at] changes, and no other record does. *)
Theorem unsubscribe_absent_no_write (env : Env) (m : OperationMessage)
    (w : World) :
  let now := utcnow env (ticks w) in
  let r := process_unsubscribe_operation env m w in
  (email_index (table w) (email m) = [] →
     table r.2 = table w
     ∧ writes (log r.2) = writes (log w)
     ∧ (r.1 = Ok tt
        ∨ ∃ msg, store_fault env (length (log w)) = Some msg
                 ∧ r.1 = Raise (Exception msg)))
  ∧ (∀ (sub : item) (rest : list item) (k : attr),
       wf_table (table w) →
       email_index (table w) (email m) = sub :: rest →
       key_of sub = Some k →
       sub !! "status" = Some (AStr "inactive") →
       calls_succeed env w 2 →
       let sets := [("status", AStr "inactive"); ("updated_at", ANum now)] in
       r.1 = Ok tt
       ∧ writes (log r.2) = writes (log w) ++ [UpdateItem k sets]
       ∧ table r.2 = update_if_key k sets <$> table w
       ∧ apply_sets sets sub = <[ "updated_at" := ANum now ]> sub
       ∧ <[ "updated_at" := ANum now ]> sub ∈ table r.2
       ∧ ∀ it : item, it ∈ table w → it ≠ sub → it ∈ table r.2).
Proof.
  intros now r. split.
  - intros Habs.
    destruct (unsubscribe_absent_frame env m w Habs) as [Htab Hlog].
    split; [exact Htab|]. split; [exact Hlog|].
    subst r. unfold process_unsubscribe_operation, bind. cbn.
    destruct (store_fault env (length (log w))) as [msg|] eqn:Hf.
    + right. exists msg. split; [done|].
      by rewrite (query_subscriber_by_email_fault _ _ _ msg).
    + left. rewrite query_subscriber_by_email_ok by done. cbn.
      by rewrite Habs.
  - intros sub rest k Hwf Hidx Hk Hst Hok sets.
    subst r. rewrite (unsubscribe_found_run env m w sub rest k) by done.
    cbn [fst snd].
    destruct (updated_world_facts w (email m) k sets sub rest Hwf Hidx Hk)
      as (Hlog & Htab & Hlen & Hsub & Hrest).
    assert (apply_sets sets sub = <[ "updated_at" := ANum now ]> sub) as Heq.
    { subst sets. cbn. by rewrite (insert_id sub "status"). }
    split; [done|]. split.
    { etrans; [exact (f_equal writes Hlog)|]. by rewrite writes_app. }
    split; [exact Htab|]. split; [exact Heq|].
    split; [by rewrite <- Heq|exact Hrest].
Qed.

Lemma unsubscribe_absent_no_write_witness :
  let w := Demo.world_of [Demo.other; Demo.inactive_a] in
  let m := Demo.msg "unsubscribe" "c@x.com" 1000 in
  (email_index (table w) "c@x.com" = []
   ∧ table (process_unsubscribe_operation Demo.env m w).2 = table w
   ∧ writes (log (process_unsubscribe_operation Demo.env m w).2) = [])
  ∧ (wf_table (table w)
     ∧ email_index (table w) "a@x.com" = [Demo.inactive_a]
     ∧ table (process_unsubscribe_operation Demo.env Demo.unsubscribe_a w).2
       = [Demo.other; Demo.stored "id-a" "a@x.com" "inactive" 100 5000]).
Proof.
  intros w m.
  assert (email_index (table w) (email m) = []) as Habs by compute_done.
  assert (wf_table (table w)) as Hwf by compute_done.
  assert (email_index (table w) (email Demo.unsubscribe_a)
          = [Demo.inactive_a]) as Hidx by compute_done.
  split.
  - destruct (unsubscribe_absent_no_write Demo.env m w) as [Hno _].
    destruct (Hno Habs) as (Htab & Hlog & _).
    split; [exact Habs|]. split; [exact Htab|exact Hlog].
  - destruct (unsubscribe_absent_no_write Demo.env Demo.unsubscribe_a w)
      as [_ Hup].
    destruct (Hup Demo.inactive_a [] (AStr "id-a") Hwf Hidx eq_refl eq_refl
                (Demo.env_calls_succeed _ 2)) as (_ & _ & Htab & _).
    split; [exact Hwf|]. split; [exact Hidx|].
    etrans; [exact Htab|]. compute_done.
Defined.

(** ** An email that the index returns more than once *)

Lemma wf_table_NoDup (t : table_t) : wf_table t → NoDup t.
Proof. intros [_ Hnd]. by eapply NoDup_fmap_1. Qed.

Lemma email_index_second (t : table_t) (e : string) (first second : item) rest :
  wf_table t →
  email_index t e = first :: second :: rest →
  second ∈ t ∧ second ≠ first.
Proof.
  intros Hwf Hidx.
  assert (NoDup (email_index t e)) as Hnd
    by (by apply NoDup_filter, wf_table_NoDup).
  assert (second ∈ email_index t e) as Hin by (rewrite Hidx; right; left).
  apply list_elem_of_filter in Hin as [_ Hin]. split; [done|].
  rewrite Hidx in Hnd. apply NoDup_cons in Hnd as [Hnot _].
  intros ->. apply Hnot. left.
Qed.

(** C9.  When the email index returns more than one record for the email
    of an intent, the lookup returns the first of them without raising,
    and both the subscribe and the unsubscribe processing return normally
    with a single write, an [update_item] on the key of that first record:
    the second record, and every record other than the first, is in the
    table afterwards exactly as before. *)
Theorem duplicate_email_first_record_only (env : Env) (m : OperationMessage)
    (w : World) (first second : item) (rest : list item) (k : attr) :
  wf_table (table w) →
  email_index (table w) (email m) = first :: second :: rest →
  key_of first = Some k →
  calls_succeed env w 2 →
  let now := utcnow env (ticks w) in
  let sets_sub :=
    if decide (default (AStr "inactive") (first !! "status") = AStr "inactive")
    then [("status", AStr "active"); ("updated_at", ANum now)]
    else [("updated_at", ANum now)] in
  let sets_unsub := [("status", AStr "inactive"); ("updated_at", ANum now)] in
  let rs := process_subscribe_operation env m w in
  let ru := process_unsubscribe_operation env m w in
  query_subscriber_by_email env (email m) w
  = (Ok (Some first), log_call (Query (email m)) w)
  ∧ (rs.1 = Ok tt
     ∧ writes (log rs.2) = writes (log w) ++ [UpdateItem k sets_sub]
     ∧ table rs.2 = update_if_key k sets_sub <$> table w
     ∧ apply_sets sets_sub first ∈ table rs.2
     ∧ second ∈ table rs.2
     ∧ ∀ it : item, it ∈ table w → it ≠ first → it ∈ table rs.2)
  ∧ (ru.1 = Ok tt
     ∧ writes (log ru.2) = writes (log w) ++ [UpdateItem k sets_unsub]
     ∧ table ru.2 = update_if_key k sets_unsub <$> table w
     ∧ apply_sets sets_unsub first ∈ table ru.2
     ∧ second ∈ table ru.2
     ∧ ∀ it : item, it ∈ table w → it ≠ first → it ∈ table ru.2).
Proof.
  intros Hwf Hidx Hk Hok now sets_sub sets_unsub rs ru.
  destruct (email_index_second _ _ _ _ _ Hwf Hidx) as [Hsec Hne].
  split.
  { rewrite query_subscriber_by_email_ok by (by eapply calls_succeed_now).
    by rewrite Hidx. }
  split.
  - subst rs.
    rewrite (subscribe_found_run env m w first (second :: rest) k) by done.
    fold now. fold sets_sub. cbn [fst snd].
    destruct (updated_world_facts w (email m) k sets_sub first
                (second :: rest) Hwf Hidx Hk)
      as (Hlog & Htab & Hlen & Hsub & Hrest).
    split; [done|]. split.
    { etrans; [exact (f_equal writes Hlog)|]. rewrite writes_app.
      by subst sets_sub; case_decide. }
    split; [exact Htab|]. split; [exact Hsub|].
    split; [by apply Hrest|exact Hrest].
  - subst ru.
    rewrite (unsubscribe_found_run env m w first (second :: rest) k) by done.
    cbn [fst snd].
    destruct (updated_world_facts w (email m) k sets_unsub first
                (second :: rest) Hwf Hidx Hk)
      as (Hlog & Htab & Hlen & Hsub & Hrest).
    split; [done|]. split.
    { etrans; [exact (f_equal writes Hlog)|]. by rewrite writes_app. }
    split; [exact Htab|]. split; [exact Hsub|].
    split; [by apply Hrest|exact Hrest].
Qed.

Lemma duplicate_email_first_record_only_witness :
  let w := Demo.world_of [Demo.active_a; Demo.other; Demo.twin_a] in
  (wf_table (table w)
   ∧ email_index (table w) "a@x.com" = [Demo.active_a; Demo.twin_a])
  ∧ table (process_subscribe_operation Demo.env Demo.subscribe_a w).2
    = [Demo.stored "id-a" "a@x.com" "active" 100 5000; Demo.other;
       Demo.twin_a]
  ∧ table (process_unsubscribe_operation Demo.env Demo.unsubscribe_a w).2
    = [Demo.stored "id-a" "a@x.com" "inactive" 100 5000; Demo.other;
       Demo.twin_a].
Proof.
  intros w.
  assert (wf_table (table w)) as Hwf by compute_done.
  assert (email_index (table w) (email Demo.subscribe_a)
          = [Demo.active_a; Demo.twin_a]) as Hidx by compute_done.
  destruct (duplicate_email_first_record_only Demo.env Demo.subscribe_a w
              Demo.active_a Demo.twin_a [] (AStr "id-a") Hwf Hidx eq_refl
              (Demo.env_calls_succeed _ 2))
    as (_ & (_ & _ & Hs & _) & (_ & _ & Hu & _)).
  split; [by split|]. split.
  - etrans; [exact Hs|]. compute_done.
  - etrans; [exact Hu|]. compute_done.
Defined.

(** ** Where the timestamps come from *)

Section Clock.

Variable env : Env.

Lemma query_subscriber_by_email_log e w :
  log (query_subscriber_by_email env e w).2 = log w ++ [Query e].
Proof.
  destruct (store_fault env (length (log w))) as [msg|] eqn:Hf.
  - by rewrite (query_subscriber_by_email_fault _ _ _ msg).
  - by rewrite query_subscriber_by_email_ok.
Qed.

Lemma table_update_item_log k sets w :
  log (table_update_item env k sets w).2 = log w ++ [UpdateItem k sets].
Proof.
  unfold table_update_item, bind, store_call_begin.
  by destruct (store_fault env (length (log w))).
Qed.

Lemma table_put_item_log new w :
  log (table_put_item env new w).2 = log w ++ [PutItem new].
Proof.
  unfold table_put_item, bind, store_call_begin.
  destruct (store_fault env (length (log w))); [done|].
  by destruct (key_of new).
Qed.

Lemma stamped_with_query now e : stamped_with now [Query e].
Proof. repeat constructor. Qed.

Lemma subscribe_stamps m w :
  ∃ calls,
    log (process_subscribe_operation env m w).2 = log w ++ calls
    ∧ stamped_with (utcnow env (ticks w)) calls.
Proof.
  unfold process_subscribe_operation, bind at 1 2. cbn.
  pose proof (query_subscriber_by_email_log (email m) (tick w)) as Hq.
  destruct (query_subscriber_by_email env (email m) (tick w))
    as [[o|ex] w1]; cbn in Hq.
  2:{ exists [Query (email m)]. split; [done|apply stamped_with_query]. }
  destruct (found o) as [sub|].
  - unfold getitem, bind. destruct (sub !! "id") as [k|]; cbn.
    2:{ exists [Query (email m)]. split; [done|apply stamped_with_query]. }
    case_decide.
    + eexists [Query (email m); UpdateItem k _].
      rewrite table_update_item_log, Hq, <- app_assoc.
      split; [done|]. by repeat constructor.
    + eexists [Query (email m); UpdateItem k _].
      rewrite table_update_item_log, Hq, <- app_assoc.
      split; [done|]. by repeat constructor.
  - unfold bind. cbn.
    eexists [Query (email m); PutItem _].
    rewrite table_put_item_log. cbn. rewrite Hq, <- app_assoc.
    split; [done|]. by repeat constructor.
Qed.

Lemma unsubscribe_stamps m w :
  ∃ calls,
    log (process_unsubscribe_operation env m w).2 = log w ++ calls
    ∧ stamped_with (utcnow env (ticks w)) calls.
Proof.
  unfold process_unsubscribe_operation, bind at 1 2. cbn.
  pose proof (query_subscriber_by_email_log (email m) (tick w)) as Hq.
  destruct (query_subscriber_by_email env (email m) (tick w))
    as [[o|ex] w1]; cbn in Hq.
  2:{ exists [Query (email m)]. split; [done|apply stamped_with_query]. }
  destruct (found o) as [sub|].
  - unfold getitem, bind. destruct (sub !! "id") as [k|]; cbn.
    2:{ exists [Query (email m)]. split; [done|apply stamped_with_query]. }
    eexists [Query (email m); UpdateItem k _].
    rewrite table_update_item_log, Hq, <- app_assoc.
    split; [done|]. by repeat constructor.
  - exists [Query (email m)]. split; [done|apply stamped_with_query].
Qed.

End Clock.

(** C8.  The producer-side [timestamp] of an intent has no influence on
    what the engine does: replacing it by any other value leaves the run of
    the subscribe processing, of the unsubscribe processing and of the
    dispatch on the operation unchanged, result and final state alike
    (same clock, same store).  And every value that either processing
    stores under [subscribed_at] or [updated_at] is the reading that the
    run took from the engine clock. *)
Theorem timestamps_from_engine_clock (env : Env) (m : OperationMessage)
    (ts : Z) (w : World) :
  process_subscribe_operation env (with_timestamp ts m) w
  = process_subscribe_operation env m w
  ∧ process_unsubscribe_operation env (with_timestamp ts m) w
    = process_unsubscribe_operation env m w
  ∧ (∀ c, dispatch env c (with_timestamp ts m) w = dispatch env c m w)
  ∧ (∃ calls,
       log (process_subscribe_operation env m w).2 = log w ++ calls
       ∧ stamped_with (utcnow env (ticks w)) calls)
  ∧ (∃ calls,
       log (process_unsubscribe_operation env m w).2 = log w ++ calls
       ∧ stamped_with (utcnow env (ticks w)) calls).
Proof.
  split; [reflexivity|]. split; [reflexivity|]. split; [reflexivity|].
  split; [apply subscribe_stamps|apply unsubscribe_stamps].
Qed.

(** ** Replaying a subscribe intent *)

Section Replay.

Variable env : Env.

(** Once the record is there and active, each further delivery moves
    [updated_at] to the clock reading of that delivery and nothing else. *)
Lemma replay_on_active (m : OperationMessage) (n : nat) :
  ∀ (w : World) (sub : item) (k : attr),
    wf_table (table w) →
    email_index (table w) (email m) = [sub] →
    key_of sub = Some k →
    sub !! "status" = Some (AStr "active") →
    calls_succeed env w (2 * n) →
    ∃ (w' : World) (sub' : item),
      replay env n m w = (Ok tt, w')
      ∧ email_index (table w') (email m) = [sub']
      ∧ sub' !! "status" = Some (AStr "active")
      ∧ sub' !! "subscribed_at" = sub !! "subscribed_at"
      ∧ sub' !! "updated_at"
        = match n with
          | 0 => sub !! "updated_at"
          | S n' => Some (ANum (utcnow env (ticks w + n')))
          end.
Proof.
  induction n as [|n IH]; intros w sub k Hwf Hidx Hk Hst Hok.
  { exists w, sub. by repeat split. }
  set (now := utcnow env (ticks w)).
  set (sets := [("updated_at", ANum now)]).
  assert (calls_succeed env w 2) as Hok2
    by (apply (calls_succeed_le env w (2 * S n) 2); [lia|exact Hok]).
  pose proof (subscribe_found_run env m w sub [] k Hidx Hk Hok2) as Hrun.
  cbn zeta in Hrun. rewrite Hst in Hrun. cbn [default] in Hrun.
  rewrite decide_False in Hrun by done. fold now sets in Hrun.
  set (w1 := with_table (update_item_in k sets (table w))
               (log_call (UpdateItem k sets)
                  (log_call (Query (email m)) (tick w)))) in Hrun.
  destruct (email_index_head_elem _ _ _ _ Hidx) as [Hin _].
  assert (Some k ∈ key_of <$> table w) as Hkin
    by (by eapply wf_table_key_elem).
  assert (table w1 = update_if_key k sets <$> table w) as Htab
    by (apply update_item_in_present; [apply Hwf|done]).
  assert (wf_table (table w1)) as Hwf1
    by (apply wf_table_update; [not_assigned|done|done]).
  assert (email_index (table w1) (email m) = [<["updated_at" := ANum now]> sub])
    as Hidx1.
  { rewrite Htab, email_index_update by not_assigned. rewrite Hidx. cbn.
    unfold update_if_key. by rewrite decide_True. }
  assert (calls_succeed env w1 (2 * n)) as Hok1.
  { intros j Hj. cbn. rewrite !length_app. cbn.
    replace (length (log w) + 1 + 1 + j) with (length (log w) + (2 + j))
      by lia.
    apply Hok. lia. }
  destruct (IH w1 (<["updated_at" := ANum now]> sub) k Hwf1 Hidx1)
    as (w' & sub' & Hrep & Hidx' & Hst' & Hsince & Hlast); try done.
  { unfold key_of. by rewrite lookup_insert_ne. }
  { by rewrite lookup_insert_ne. }
  exists w', sub'. split.
  { cbn [replay]. unfold bind. by rewrite Hrun. }
  split; [done|]. split; [done|]. split.
  { rewrite Hsince. by rewrite lookup_insert_ne. }
  rewrite Hlast. destruct n as [|n'].
  - rewrite lookup_insert_eq. subst now. by rewrite Nat.add_0_r.
  - cbn. do 3 f_equal. lia.
Qed.

End Replay.

(** C2.  For an email that the index does not know, [n ≥ 1] deliveries of
    the same subscribe intent, one after the other and with the store
    answering every call, all return normally and leave exactly one record
    for that email.  Its [status] is [active], its [subscribed_at] is the
    clock reading of the first delivery and its [updated_at] the clock
    reading of the last one. *)
Theorem replayed_subscribe_one_active_record (env : Env)
    (m : OperationMessage) (w : World) (n : nat) :
  1 ≤ n →
  wf_table (table w) →
  email_index (table w) (email m) = [] →
  calls_succeed env w (2 * n) →
  let r := replay env n m w in
  r.1 = Ok tt
  ∧ ∃ sub : item,
      email_index (table r.2) (email m) = [sub]
      ∧ sub !! "status" = Some (AStr "active")
      ∧ sub !! "subscribed_at" = Some (ANum (utcnow env (ticks w)))
      ∧ sub !! "updated_at" = Some (ANum (utcnow env (ticks w + n - 1))).
Proof.
  intros Hn Hwf Habs Hok r.
  destruct n as [|n]; [lia|]. clear Hn.
  set (sid := uuid4 env (drawn w)).
  set (now := utcnow env (ticks w)).
  set (new := new_subscriber sid m now).
  assert (calls_succeed env w 2) as Hok2
    by (apply (calls_succeed_le env w (2 * S n) 2); [lia|exact Hok]).
  pose proof (subscribe_absent_run env m w Habs Hok2) as Hrun.
  cbn zeta in Hrun. fold sid now new in Hrun.
  set (w1 := with_table (put_item_in (AStr sid) new (table w))
               (log_call (PutItem new)
                  (draw (log_call (Query (email m)) (tick w))))) in Hrun.
  assert (wf_table (table w1)) as Hwf1 by (by apply wf_table_put).
  assert (email_index (table w1) (email m) = [new]) as Hidx1
    by (by apply email_index_put_absent).
  assert (calls_succeed env w1 (2 * n)) as Hok1.
  { intros j Hj. cbn. rewrite !length_app. cbn.
    replace (length (log w) + 1 + 1 + j) with (length (log w) + (2 + j))
      by lia.
    apply Hok. lia. }
  destruct (replay_on_active env m n w1 new (AStr sid) Hwf1 Hidx1 eq_refl
              eq_refl Hok1)
    as (w' & sub' & Hrep & Hidx' & Hst' & Hsince & Hlast).
  subst r. cbn [replay]. unfold bind. rewrite Hrun, Hrep. cbn [fst snd].
  split; [done|]. exists sub'. split; [done|]. split; [done|].
  split; [by rewrite Hsince|].
  rewrite Hlast. destruct n as [|n'].
  - replace (ticks w + 1 - 1) with (ticks w) by lia. done.
  - cbn. do 3 f_equal. lia.
Qed.

Lemma replayed_subscribe_one_active_record_witness :
  let w := Demo.world_of [Demo.other] in
  let r := replay Demo.env 3 Demo.subscribe_a w in
  (1 ≤ 3 ∧ wf_table (table w) ∧ email_index (table w) "a@x.com" = [])
  ∧ r.1 = Ok tt
  ∧ ∃ sub : item,
      email_index (table r.2) "a@x.com" = [sub]
      ∧ sub !! "status" = Some (AStr "active")
      ∧ sub !! "subscribed_at" = Some (ANum 5000)
      ∧ sub !! "updated_at" = Some (ANum 5002).
Proof.
  intros w r.
  assert (1 ≤ 3) as Hn by lia.
  assert (wf_table (table w)) as Hwf by compute_done.
  assert (email_index (table w) (email Demo.subscribe_a) = []) as Habs
    by compute_done.
  split; [split; [exact Hn|split; [exact Hwf|exact Habs]]|].
  exact (replayed_subscribe_one_active_record Demo.env Demo.subscribe_a w 3
           Hn Hwf Habs (Demo.env_calls_succeed _ _)).
Defined.

(** ** The batch handler *)

Section Batch.

Variable env : Env.

(** An exception in the body of the [try] becomes an entry of
    [failed_messages]; the world stays as the body left it. *)
Lemma handle_record_caught record c w e w1 :
  (operation_message <- decode env (body record) ;;
   dispatch env c operation_message) w = (Raise e, w1) →
  handle_record env record c w
  = (Ok (record_failure (receiptHandle record) (exn_message e)
           (count_failed c)), w1).
Proof.
  intros Hbody. unfold handle_record, try_except. rewrite Hbody.
  by destruct e.
Qed.

Lemma handle_record_passed record c w c1 w1 :
  (operation_message <- decode env (body record) ;;
   dispatch env c operation_message) w = (Ok c1, w1) →
  handle_record env record c w = (Ok c1, w1).
Proof. intros Hbody. unfold handle_record, try_except. by rewrite Hbody. Qed.

Lemma dispatch_counts c m w c1 w1 :
  dispatch env c m w = (Ok c1, w1) →
  processed_count c1 + failed_count c1
  = S (processed_count c + failed_count c).
Proof.
  unfold dispatch, bind, ret. intros H.
  repeat case_decide.
  - destruct (process_subscribe_operation env m w) as [[[]|e] w2];
      simplify_eq; done.
  - destruct (process_unsubscribe_operation env m w) as [[[]|e] w2];
      simplify_eq; done.
  - simplify_eq. cbn. lia.
Qed.

Lemma handle_record_total record c w :
  ∃ c1 w1,
    handle_record env record c w = (Ok c1, w1)
    ∧ processed_count c1 + failed_count c1
      = S (processed_count c + failed_count c).
Proof.
  destruct ((operation_message <- decode env (body record) ;;
             dispatch env c operation_message) w) as [[c1|e] w1] eqn:Hbody.
  - exists c1, w1. split; [by apply handle_record_passed|].
    unfold bind, decode in Hbody.
    destruct (parse_message env (body record)) as [m|e]; [|done].
    by eapply dispatch_counts.
  - eexists _, w1. split; [by apply handle_record_caught|]. done.
Qed.

Lemma for_each_record_total records :
  ∀ c w, ∃ c1 w1,
    for_each_record env records c w = (Ok c1, w1)
    ∧ processed_count c1 + failed_count c1
      = processed_count c + failed_count c + length records.
Proof.
  induction records as [|record rest IH]; intros c w.
  - exists c, w. split; [done|]. cbn. lia.
  - destruct (handle_record_total record c w) as (c1 & w1 & Hone & Hsum).
    destruct (IH c1 w1) as (c2 & w2 & Hrest & Hsum').
    exists c2, w2. split.
    + cbn [for_each_record]. unfold bind. by rewrite Hone.
    + rewrite Hsum'. cbn. lia.
Qed.

Lemma for_each_record_app rs1 rs2 :
  ∀ c w,
    for_each_record env (rs1 ++ rs2) c w
    = (c1 <- for_each_record env rs1 c ;; for_each_record env rs2 c1) w.
Proof.
  induction rs1 as [|record rs1 IH]; intros c w; [done|].
  cbn [app for_each_record]. unfold bind at 1 2 3.
  destruct (handle_record env record c w) as [[c1|e] w1]; [|done].
  apply IH.
Qed.

(** With a well-formed table and a store that answers, applying an
    intent returns normally and keeps the table well-formed. *)
Lemma process_subscribe_succeeds m w :
  reliable env → wf_table (table w) →
  ∃ w1, process_subscribe_operation env m w = (Ok tt, w1)
        ∧ wf_table (table w1).
Proof.
  intros Hrel Hwf.
  assert (calls_succeed env w 2) as Hok by (intros k _; apply Hrel).
  destruct (email_index (table w) (email m)) as [|sub rest] eqn:Hidx.
  - eexists. split; [by apply subscribe_absent_run|].
    cbn. by apply wf_table_put.
  - destruct (email_index_head_elem _ _ _ _ Hidx) as [Hin _].
    assert (is_Some (key_of sub)) as [k Hk].
    { destruct Hwf as [Hall _]. by eapply (proj1 (Forall_forall _ _) Hall). }
    eexists. split; [by eapply subscribe_found_run|].
    cbn. apply wf_table_update; [|done|by eapply wf_table_key_elem].
    case_decide; not_assigned.
Qed.

Lemma process_unsubscribe_succeeds m w :
  reliable env → wf_table (table w) →
  ∃ w1, process_unsubscribe_operation env m w = (Ok tt, w1)
        ∧ wf_table (table w1).
Proof.
  intros Hrel Hwf.
  assert (calls_succeed env w 2) as Hok by (intros k _; apply Hrel).
  destruct (email_index (table w) (email m)) as [|sub rest] eqn:Hidx.
  - exists (log_call (Query (email m)) (tick w)). split; [|exact Hwf].
    apply unsubscribe_absent_run; [done|].
    intros k _. apply Hrel.
  - destruct (email_index_head_elem _ _ _ _ Hidx) as [Hin _].
    assert (is_Some (key_of sub)) as [k Hk].
    { destruct Hwf as [Hall _]. by eapply (proj1 (Forall_forall _ _) Hall). }
    eexists. split; [by eapply unsubscribe_found_run|].
    cbn. apply wf_table_update; [not_assigned|done|].
    by eapply wf_table_key_elem.
Qed.

Lemma process_operation_succeeds m w :
  reliable env → wf_table (table w) →
  ∃ w1, process_operation env m w = (Ok tt, w1) ∧ wf_table (table w1).
Proof.
  intros Hrel Hwf. unfold process_operation. case_decide.
  - by apply process_subscribe_succeeds.
  - by apply process_unsubscribe_succeeds.
Qed.

Lemma handle_record_applies h b m c w w1 :
  parse_message env b = Ok m →
  known_operation m →
  process_operation env m w = (Ok tt, w1) →
  handle_record env (mkRecord h b) c w = (Ok (count_processed c), w1).
Proof.
  intros Hparse Hop Hrun. apply handle_record_passed.
  unfold bind, decode. cbn. rewrite Hparse.
  unfold dispatch, bind, process_operation in *.
  destruct Hop as [Hop|Hop].
  - rewrite decide_True in Hrun by done. rewrite decide_True by done.
    by rewrite Hrun.
  - rewrite decide_False in Hrun by (by rewrite Hop).
    rewrite decide_False by (by rewrite Hop).
    rewrite decide_True by done. by rewrite Hrun.
Qed.

Lemma handle_record_malformed h b e c w :
  parse_message env b = Raise e →
  handle_record env (mkRecord h b) c w
  = (Ok (record_failure h (exn_message e) (count_failed c)), w).
Proof.
  intros Hparse.
  apply (handle_record_caught (mkRecord h b)).
  unfold bind, decode. cbn. by rewrite Hparse.
Qed.

Lemma handle_record_unknown_operation h b m c w :
  parse_message env b = Ok m →
  operation m ≠ "subscribe" → operation m ≠ "unsubscribe" →
  handle_record env (mkRecord h b) c w = (Ok (count_failed c), w).
Proof.
  intros Hparse Hs Hu. apply handle_record_passed.
  unfold bind, decode. cbn. rewrite Hparse. unfold dispatch.
  by rewrite !decide_False.
Qed.

End Batch.

Lemma is_known_iff (m : OperationMessage) :
  is_known m = true ↔ known_operation m.
Proof.
  unfold is_known, known_operation.
  by rewrite orb_true_iff, !bool_decide_eq_true.
Qed.

Section Isolation.

Variable env : Env.

Lemma isolated_step_applied c w h b m w1 :
  parse_message env b = Ok m → known_operation m →
  process_operation env m w = (Ok tt, w1) →
  isolated_step env (c, w) (mkRecord h b) = (count_processed c, w1).
Proof.
  intros Hp Hop Hrun. unfold isolated_step. cbn [body receiptHandle fst snd].
  by rewrite Hp, (proj2 (is_known_iff m) Hop), Hrun.
Qed.

Lemma isolated_step_raised c w h b m e w1 :
  parse_message env b = Ok m → known_operation m →
  process_operation env m w = (Raise e, w1) →
  isolated_step env (c, w) (mkRecord h b)
  = (record_failure h (exn_message e) (count_failed c), w1).
Proof.
  intros Hp Hop Hrun. unfold isolated_step. cbn [body receiptHandle fst snd].
  by rewrite Hp, (proj2 (is_known_iff m) Hop), Hrun.
Qed.

Lemma isolated_step_unknown c w h b m :
  parse_message env b = Ok m →
  operation m ≠ "subscribe" → operation m ≠ "unsubscribe" →
  isolated_step env (c, w) (mkRecord h b) = (count_failed c, w).
Proof.
  intros Hp Hs Hu. unfold isolated_step. cbn [body receiptHandle fst snd].
  rewrite Hp. unfold is_known.
  by rewrite (bool_decide_eq_false_2 _ Hs), (bool_decide_eq_false_2 _ Hu).
Qed.

(** The handler's treatment of one record is the isolated step. *)
Lemma handle_record_isolated record c w :
  handle_record env record c w
  = (Ok (isolated_step env (c, w) record).1,
     (isolated_step env (c, w) record).2).
Proof.
  destruct record as [h b]. unfold isolated_step. cbn [body receiptHandle fst snd].
  destruct (parse_message env b) as [m|e] eqn:Hparse.
  2:{ by apply handle_record_malformed. }
  unfold is_known, process_operation.
  destruct (decide (operation m = "subscribe")) as [Hs|Hs].
  { rewrite (bool_decide_eq_true_2 _ Hs). cbn [orb].
    destruct (process_subscribe_operation env m w) as [[[]|e] w1] eqn:Hrun.
    - apply handle_record_passed. unfold bind, decode. cbn. rewrite Hparse.
      unfold dispatch, bind. rewrite decide_True by done. by rewrite Hrun.
    - apply (handle_record_caught env (mkRecord h b)).
      unfold bind, decode. cbn. rewrite Hparse. unfold dispatch, bind.
      rewrite decide_True by done. by rewrite Hrun. }
  rewrite (bool_decide_eq_false_2 _ Hs). cbn [orb].
  destruct (decide (operation m = "unsubscribe")) as [Hu|Hu].
  { rewrite (bool_decide_eq_true_2 _ Hu).
    destruct (process_unsubscribe_operation env m w) as [[[]|e] w1] eqn:Hrun.
    - apply handle_record_passed. unfold bind, decode. cbn. rewrite Hparse.
      unfold dispatch, bind. rewrite decide_False by done.
      rewrite decide_True by done. by rewrite Hrun.
    - apply (handle_record_caught env (mkRecord h b)).
      unfold bind, decode. cbn. rewrite Hparse. unfold dispatch, bind.
      rewrite decide_False by done. rewrite decide_True by done.
      by rewrite Hrun. }
  rewrite (bool_decide_eq_false_2 _ Hu).
  by apply (handle_record_unknown_operation env h b m).
Qed.

Lemma for_each_record_isolated records :
  ∀ c w,
    for_each_record env records c w
    = (Ok (foldl (isolated_step env) (c, w) records).1,
       (foldl (isolated_step env) (c, w) records).2).
Proof.
  induction records as [|record rest IH]; intros c w; [done|].
  cbn [for_each_record foldl]. unfold bind.
  rewrite handle_record_isolated, IH.
  by destruct (isolated_step env (c, w) record).
Qed.

Lemma lambda_handler_isolated event w :
  lambda_handler env event w
  = (Ok (response_of (isolated_batch env (default [] (Records event)) w).1),
     (isolated_batch env (default [] (Records event)) w).2).
Proof.
  unfold lambda_handler, bind, isolated_batch.
  by rewrite for_each_record_isolated.
Qed.

End Isolation.

(** C6.  The batch handler returns a result for every event and every
    state of the world: it never raises.  Its run is the run of the batch
    as the specification words it: every record is attempted in order,
    whatever happened to the records before it, and each outcome goes into
    the counters.  An exception raised while one record is handled, be it
    by the decoder or by the store, is caught at that record and turned
    into an entry of [failed_messages]; an unknown operation is counted as
    failed and touches nothing; and the loop goes on: handling
    [rs1 ++ rs2] is handling [rs1] and then [rs2].  In particular, when
    the store refuses a call of the first record, the second has an
    unknown operation and the third is in order, the third is still
    applied and the result is [processed = 1], [failed = 2] with the
    refusal listed under the first handle.  And with a store that answers
    and a well-formed table, a batch of three records whose first and
    third decode to known operations and whose second does not decode
    yields [processed = 2], [failed = 1], the one failure listed under the
    second handle, and the world that applying the first and then the
    third intent produces. *)
Theorem batch_handler_never_raises (env : Env) :
  (∀ event w, ∃ resp w1, lambda_handler env event w = (Ok resp, w1))
  ∧ (∀ event w,
       lambda_handler env event w
       = (Ok (response_of
                (isolated_batch env (default [] (Records event)) w).1),
          (isolated_batch env (default [] (Records event)) w).2))
  ∧ (∀ record c w e w1,
       (operation_message <- decode env (body record) ;;
        dispatch env c operation_message) w = (Raise e, w1) →
       handle_record env record c w
       = (Ok (record_failure (receiptHandle record) (exn_message e)
                (count_failed c)), w1))
  ∧ (∀ h b m c w,
       parse_message env b = Ok m →
       operation m ≠ "subscribe" → operation m ≠ "unsubscribe" →
       handle_record env (mkRecord h b) c w = (Ok (count_failed c), w))
  ∧ (∀ rs1 rs2 c w,
       for_each_record env (rs1 ++ rs2) c w
       = (c1 <- for_each_record env rs1 c ;; for_each_record env rs2 c1) w)
  ∧ (∀ w w1 w3 h1 h2 h3 b1 b2 b3 m1 m2 m3 e1,
       parse_message env b1 = Ok m1 → known_operation m1 →
       process_operation env m1 w = (Raise e1, w1) →
       parse_message env b2 = Ok m2 →
       operation m2 ≠ "subscribe" → operation m2 ≠ "unsubscribe" →
       parse_message env b3 = Ok m3 → known_operation m3 →
       process_operation env m3 w1 = (Ok tt, w3) →
       lambda_handler env
         {| Records := Some [mkRecord h1 b1; mkRecord h2 b2; mkRecord h3 b3] |}
         w
       = (Ok {| Response.statusCode := 200;
                Response.processed := 1;
                Response.failed := 2;
                Response.failed_messages :=
                  [mkFailed h1 (exn_message e1)] |}, w3))
  ∧ (∀ w h1 h2 h3 b1 b2 b3 m1 m3 e2,
       reliable env →
       wf_table (table w) →
       parse_message env b1 = Ok m1 → known_operation m1 →
       parse_message env b2 = Raise e2 →
       parse_message env b3 = Ok m3 → known_operation m3 →
       let event :=
         {| Records := Some [mkRecord h1 b1; mkRecord h2 b2; mkRecord h3 b3] |} in
       let r := lambda_handler env event w in
       r.1 = Ok {| Response.statusCode := 200;
                   Response.processed := 2;
                   Response.failed := 1;
                   Response.failed_messages :=
                     [mkFailed h2 (exn_message e2)] |}
       ∧ (process_operation env m1 ;;; process_operation env m3) w
         = (Ok tt, r.2)).
Proof.
  split.
  { intros event w.
    destruct (for_each_record_total env (default [] (Records event))
                no_counts w) as (c1 & w1 & Hrun & _).
    eexists _, w1. unfold lambda_handler, bind. by rewrite Hrun. }
  split; [apply lambda_handler_isolated|].
  split; [apply handle_record_caught|].
  split; [apply handle_record_unknown_operation|].
  split; [apply for_each_record_app|].
  split.
  { intros w w1 w3 h1 h2 h3 b1 b2 b3 m1 m2 m3 e1
      Hp1 Hop1 Hrun1 Hp2 Hs2 Hu2 Hp3 Hop3 Hrun3.
    rewrite lambda_handler_isolated. unfold isolated_batch.
    cbn [Records default from_option id foldl].
    rewrite (isolated_step_raised env _ w h1 b1 m1 e1 w1 Hp1 Hop1 Hrun1).
    rewrite (isolated_step_unknown env _ w1 h2 b2 m2 Hp2 Hs2 Hu2).
    by rewrite (isolated_step_applied env _ w1 h3 b3 m3 w3 Hp3 Hop3 Hrun3). }
  intros w h1 h2 h3 b1 b2 b3 m1 m3 e2 Hrel Hwf Hp1 Hop1 Hp2 Hp3 Hop3 event r.
  destruct (process_operation_succeeds env m1 w Hrel Hwf)
    as (w1 & Hrun1 & Hwf1).
  destruct (process_operation_succeeds env m3 w1 Hrel Hwf1)
    as (w3 & Hrun3 & _).
  subst r event. unfold lambda_handler.
  cbn [Records default from_option id for_each_record]. unfold bind.
  rewrite (handle_record_applies env h1 b1 m1 _ w w1) by done.
  rewrite (handle_record_malformed env h2 b2 e2) by done.
  rewrite (handle_record_applies env h3 b3 m3 _ w1 w3) by done.
  rewrite Hrun1, Hrun3. done.
Qed.

Lemma batch_handler_never_raises_witness :
  let r := lambda_handler Demo.env Demo.batch Demo.empty_world in
  let r' := lambda_handler (Demo.env_failing_at 0) Demo.mixed_batch
              (Demo.world_of [Demo.other]) in
  (r.1 = Ok {| Response.statusCode := 200;
               Response.processed := 2;
               Response.failed := 1;
               Response.failed_messages :=
                 [mkFailed (Some "h2")
                    "Expecting value: line 1 column 1 (char 0)"] |}
   ∧ parse_message Demo.env (Some "{operation:")
     = Raise (Exception "Expecting value: line 1 column 1 (char 0)")
   ∧ table r.2
     = [new_subscriber "uuid-0" (Demo.msg "subscribe" "a@x.com" 1000) 5000;
        new_subscriber "uuid-1" (Demo.msg "subscribe" "b@x.com" 1000) 5001])
  ∧ (process_operation (Demo.env_failing_at 0) Demo.subscribe_a
       (Demo.world_of [Demo.other])).1
    = Raise (Exception "ProvisionedThroughputExceededException")
  ∧ r'.1 = Ok {| Response.statusCode := 200;
                 Response.processed := 1;
                 Response.failed := 2;
                 Response.failed_messages :=
                   [mkFailed (Some "h1")
                      "ProvisionedThroughputExceededException"] |}
  ∧ table r'.2 = [Demo.stored "id-b" "b@x.com" "active" 50 5001].
Proof.
  intros r r'.
  destruct (batch_handler_never_raises Demo.env) as (_ & _ & _ & _ & _ & _ & Hbatch).
  destruct (batch_handler_never_raises (Demo.env_failing_at 0))
    as (_ & _ & _ & _ & _ & Hmixed & _).
  assert (wf_table (table Demo.empty_world)) as Hwf by compute_done.
  destruct (Hbatch Demo.empty_world (Some "h1") (Some "h2") (Some "h3")
              (Some "sub a@x.com") (Some "{operation:") (Some "sub b@x.com")
              (Demo.msg "subscribe" "a@x.com" 1000)
              (Demo.msg "subscribe" "b@x.com" 1000)
              (Exception "Expecting value: line 1 column 1 (char 0)")
              Demo.env_reliable Hwf eq_refl (or_introl eq_refl) eq_refl
              eq_refl (or_introl eq_refl)) as [Hres Hworld].
  set (w0 := Demo.world_of [Demo.other]).
  set (o1 := process_operation (Demo.env_failing_at 0) Demo.subscribe_a w0).
  set (o3 := process_operation (Demo.env_failing_at 0)
               (Demo.msg "subscribe" "b@x.com" 1000) o1.2).
  assert (o1 = (Raise (Exception "ProvisionedThroughputExceededException"),
                o1.2)) as Ho1 by compute_done.
  assert (o3 = (Ok tt, o3.2)) as Ho3 by compute_done.
  pose proof (Hmixed w0 o1.2 o3.2 (Some "h1") (Some "h2") (Some "h3")
                (Some "sub a@x.com") (Some "purge a@x.com")
                (Some "sub b@x.com")
                Demo.subscribe_a (Demo.msg "purge" "a@x.com" 1000)
                (Demo.msg "subscribe" "b@x.com" 1000)
                (Exception "ProvisionedThroughputExceededException")
                eq_refl (or_introl eq_refl) Ho1 eq_refl) as Hrun.
  assert (operation (Demo.msg "purge" "a@x.com" 1000) ≠ "subscribe") as Hs
    by compute_done.
  assert (operation (Demo.msg "purge" "a@x.com" 1000) ≠ "unsubscribe") as Hu
    by compute_done.
  specialize (Hrun Hs Hu eq_refl (or_introl eq_refl) Ho3).
  split.
  { split; [exact Hres|]. split; [reflexivity|].
    apply (f_equal (λ x, table x.2)) in Hworld. cbn [snd] in Hworld.
    etrans; [symmetry; exact Hworld|]. compute_done. }
  split; [exact (f_equal fst Ho1)|].
  split; [exact (f_equal fst Hrun)|].
  etrans; [exact (f_equal (λ x, table x.2) Hrun)|]. compute_done.
Defined.

(** C7.  The handler counts a record whose operation is neither
    [subscribe] nor [unsubscribe] as failed and adds nothing to
    [failed_messages]: for the batch made of one such record the result is
    [failed = 1] with an empty list, and the world is untouched. *)
Theorem unknown_operation_counted_not_listed :
  lambda_handler Demo.env Demo.purge_batch Demo.empty_world
  = (Ok {| Response.statusCode := 200;
           Response.processed := 0;
           Response.failed := 1;
           Response.failed_messages := [] |},
     Demo.empty_world).
Proof. reflexivity. Qed.

(** C10.  For every event the handler returns a result whose [processed]
    and [failed] counts add up to the number of records of the event. *)
Theorem every_record_counted_once (env : Env) (event : Event) (w : World) :
  ∃ resp w1,
    lambda_handler env event w = (Ok resp, w1)
    ∧ Response.processed resp + Response.failed resp
      = length (default [] (Records event)).
Proof.
  destruct (for_each_record_total env (default [] (Records event))
              no_counts w) as (c1 & w1 & Hrun & Hsum).
  eexists _, w1. unfold lambda_handler, bind. rewrite Hrun.
  split; [done|]. exact Hsum.
Qed.

(** ** The runs of one intent, whatever the store does *)

Section AnyStore.

Variable env : Env.

Lemma table_update_item_run k sets w :
  table_update_item env k sets w
  = match store_fault env (length (log w)) with
    | Some msg => (Raise (Exception msg), log_call (UpdateItem k sets) w)
    | None =>
        (Ok tt, with_table (update_item_in k sets (table w))
                  (log_call (UpdateItem k sets) w))
    end.
Proof.
  unfold table_update_item, bind, store_call_begin.
  by destruct (store_fault env (length (log w))).
Qed.

Lemma table_put_item_run k new w :
  key_of new = Some k →
  table_put_item env new w
  = match store_fault env (length (log w)) with
    | Some msg => (Raise (Exception msg), log_call (PutItem new) w)
    | None =>
        (Ok tt, with_table (put_item_in k new (table w))
                  (log_call (PutItem new) w))
    end.
Proof.
  intros Hk. unfold table_put_item, bind, store_call_begin.
  destruct (store_fault env (length (log w))); [done|]. by rewrite Hk.
Qed.

Lemma process_subscribe_operation_run m w :
  let now := utcnow env (ticks w) in
  let sid := uuid4 env (drawn w) in
  let w1 := log_call (Query (email m)) (tick w) in
  process_subscribe_operation env m w
  = match store_fault env (length (log w)) with
    | Some msg => (Raise (Exception msg), w1)
    | None =>
        match email_index (table w) (email m) with
        | [] => table_put_item env (new_subscriber sid m now) (draw w1)
        | sub :: _ =>
            match key_of sub with
            | None => (Raise (Exception "'id'"), w1)
            | Some k =>
                table_update_item env k
                  (if decide (default (AStr "inactive") (sub !! "status")
                              = AStr "inactive")
                   then [("status", AStr "active"); ("updated_at", ANum now)]
                   else [("updated_at", ANum now)]) w1
            end
        end
    end.
Proof.
  intros now sid w1.
  unfold process_subscribe_operation, bind at 1 2. cbn.
  destruct (store_fault env (length (log w))) as [msg|] eqn:Hf.
  { by rewrite (query_subscriber_by_email_fault _ _ _ msg). }
  rewrite query_subscriber_by_email_ok by done. cbn.
  destruct (email_index (table w) (email m)) as [|sub rest] eqn:Hidx; [done|].
  cbn. rewrite (email_index_head_truthy _ _ _ _ Hidx).
  unfold getitem, bind, key_of.
  destruct (sub !! "id") as [k|]; [|done]. cbn. by case_decide.
Qed.

Lemma process_unsubscribe_operation_run m w :
  let now := utcnow env (ticks w) in
  let w1 := log_call (Query (email m)) (tick w) in
  process_unsubscribe_operation env m w
  = match store_fault env (length (log w)) with
    | Some msg => (Raise (Exception msg), w1)
    | None =>
        match email_index (table w) (email m) with
        | [] => (Ok tt, w1)
        | sub :: _ =>
            match key_of sub with
            | None => (Raise (Exception "'id'"), w1)
            | Some k =>
                table_update_item env k
                  [("status", AStr "inactive"); ("updated_at", ANum now)] w1
            end
        end
    end.
Proof.
  intros now w1.
  unfold process_unsubscribe_operation, bind at 1 2. cbn.
  destruct (store_fault env (length (log w))) as [msg|] eqn:Hf.
  { by rewrite (query_subscriber_by_email_fault _ _ _ msg). }
  rewrite query_subscriber_by_email_ok by done. cbn.
  destruct (email_index (table w) (email m)) as [|sub rest] eqn:Hidx; [done|].
  cbn. rewrite (email_index_head_truthy _ _ _ _ Hidx).
  unfold getitem, bind, key_of.
  by destruct (sub !! "id") as [k|].
Qed.

End AnyStore.

(** ** What a step of the engine keeps *)

Lemma engine_sets_attrs (now : Z) (sets : list (string * attr)) (a : string) :
  sets ∈ engine_sets now → a ≠ "status" → a ≠ "updated_at" → a ∉ sets.*1.
Proof.
  intros Hsets H1 H2. unfold engine_sets in Hsets.
  repeat (apply elem_of_cons in Hsets as [->|Hsets]; [not_assigned|]).
  by apply elem_of_nil in Hsets.
Qed.

Lemma length_update_item_in k sets (t : table_t) :
  length t ≤ length (update_item_in k sets t).
Proof.
  induction t as [|x t IH]; cbn [update_item_in]; [cbn; lia|].
  case_decide; cbn; lia.
Qed.

Lemma length_put_item_in k (new : item) (t : table_t) :
  length t ≤ length (put_item_in k new t).
Proof.
  induction t as [|x t IH]; cbn [put_item_in]; [cbn; lia|].
  case_decide; cbn; lia.
Qed.

Lemma email_index_put_other k (new : item) (t : table_t) (e : string) :
  new !! "email" ≠ Some (AStr e) →
  length (email_index (put_item_in k new t) e) ≤ length (email_index t e).
Proof.
  intros Hnew. unfold email_index.
  induction t as [|x t IH]; cbn [put_item_in].
  - by rewrite filter_cons_False.
  - case_decide.
    + rewrite filter_cons_False by done. rewrite (filter_cons _ x).
      case_decide; cbn; lia.
    + rewrite !(filter_cons _ x). case_decide; cbn; lia.
Qed.

(** An update on a key that some record carries keeps the list of keys,
    unique or not. *)
Lemma keys_update_item_in k sets (t : table_t) :
  "id" ∉ sets.*1 → Some k ∈ key_of <$> t →
  key_of <$> update_item_in k sets t = key_of <$> t.
Proof.
  intros Hid. induction t as [|x t IH]; intros Hin.
  - by apply elem_of_nil in Hin.
  - cbn [update_item_in]. case_decide as Hkey.
    + rewrite !fmap_cons. by rewrite key_of_apply_sets.
    + rewrite !fmap_cons. f_equal. apply IH.
      rewrite fmap_cons in Hin.
      apply elem_of_cons in Hin as [Heq|Hin]; [congruence|done].
Qed.

Lemma engine_step_length (t t' : table_t) :
  engine_step t t' → length t ≤ length t'.
Proof.
  destruct 1; [done|apply length_put_item_in|apply length_update_item_in].
Qed.

Lemma engine_step_wf (t t' : table_t) :
  wf_table t → engine_step t t' → wf_table t'.
Proof.
  intros Hwf [|sid m now Habs|e sub rest k now sets Hidx Hk Hsets]; [done|..].
  - by apply wf_table_put.
  - destruct (email_index_head_elem _ _ _ _ Hidx) as [Hin _].
    apply wf_table_update; [|done|by eapply wf_table_key_elem].
    by eapply engine_sets_attrs.
Qed.

Lemma engine_step_unique_emails (t t' : table_t) :
  wf_table t → unique_emails t → engine_step t t' → unique_emails t'.
Proof.
  intros Hwf Huniq [|sid m now Habs|e sub rest k now sets Hidx Hk Hsets];
    [done|..]; intros e'.
  - destruct (decide (e' = email m)) as [->|Hne].
    + by rewrite (email_index_put_absent _ _ _ _ Habs).
    + etrans; [apply email_index_put_other|apply Huniq].
      cbn. intros Heq. apply Hne. unfold new_subscriber in Heq.
      rewrite lookup_insert_ne, lookup_insert_eq in Heq by done.
      congruence.
  - destruct (email_index_head_elem _ _ _ _ Hidx) as [Hin _].
    rewrite update_item_in_present;
      [|apply Hwf|by eapply wf_table_key_elem].
    rewrite email_index_update by (by eapply engine_sets_attrs).
    rewrite length_fmap. apply Huniq.
Qed.

Section Effects.

Variable env : Env.

(** What one run of the subscribe processing does to the world, whether
    the store answers or not. *)
Lemma subscribe_effect m w :
  let r := process_subscribe_operation env m w in
  engine_step (table w) (table r.2)
  ∧ (∀ e, r.1 = Raise e → table r.2 = table w)
  ∧ ticks r.2 = S (ticks w)
  ∧ drawn w ≤ drawn r.2 ∧ drawn r.2 ≤ S (drawn w)
  ∧ ∃ calls, log r.2 = log w ++ calls
             ∧ length calls ≤ 2 ∧ length (writes calls) ≤ 1.
Proof.
  intros r. subst r. rewrite process_subscribe_operation_run.
  destruct (store_fault env (length (log w))) as [msg|] eqn:Hf.
  { cbn. repeat split; try done; try lia; [constructor|].
    exists [Query (email m)]. cbn. repeat split; lia. }
  destruct (email_index (table w) (email m)) as [|sub rest] eqn:Hidx.
  - erewrite table_put_item_run by reflexivity.
    destruct (store_fault env
                (length (log (draw (log_call (Query (email m)) (tick w))))))
      as [msg|].
    + cbn. repeat split; try done; try lia; [constructor|].
      eexists [Query (email m); PutItem _]. rewrite <- app_assoc. cbn.
      repeat split; lia.
    + cbn. repeat split; try done; try lia; [by constructor|].
      eexists [Query (email m); PutItem _]. rewrite <- app_assoc. cbn.
      repeat split; lia.
  - destruct (key_of sub) as [k|] eqn:Hk.
    2:{ cbn. repeat split; try done; try lia; [constructor|].
        exists [Query (email m)]. cbn. repeat split; lia. }
    rewrite table_update_item_run.
    destruct (store_fault env
                (length (log (log_call (Query (email m)) (tick w)))))
      as [msg|].
    + cbn. repeat split; try done; try lia; [constructor|].
      eexists [Query (email m); UpdateItem k _]. rewrite <- app_assoc. cbn.
      repeat split; lia.
    + cbn. repeat split; try done; try lia.
      * eapply engine_update; [exact Hidx|exact Hk|].
        unfold engine_sets. case_decide; [left|right; left].
      * eexists [Query (email m); UpdateItem k _]. rewrite <- app_assoc. cbn.
        repeat split; lia.
Qed.

Lemma unsubscribe_effect m w :
  let r := process_unsubscribe_operation env m w in
  engine_step (table w) (table r.2)
  ∧ (∀ e, r.1 = Raise e → table r.2 = table w)
  ∧ ticks r.2 = S (ticks w)
  ∧ drawn r.2 = drawn w
  ∧ key_of <$> table r.2 = key_of <$> table w
  ∧ ∃ calls, log r.2 = log w ++ calls
             ∧ length calls ≤ 2 ∧ length (writes calls) ≤ 1.
Proof.
  intros r. subst r. rewrite process_unsubscribe_operation_run.
  destruct (store_fault env (length (log w))) as [msg|] eqn:Hf.
  { cbn. repeat split; try done; [constructor|].
    exists [Query (email m)]. cbn. repeat split; lia. }
  destruct (email_index (table w) (email m)) as [|sub rest] eqn:Hidx.
  { cbn. repeat split; try done; [constructor|].
    exists [Query (email m)]. cbn. repeat split; lia. }
  destruct (key_of sub) as [k|] eqn:Hk.
  2:{ cbn. repeat split; try done; [constructor|].
      exists [Query (email m)]. cbn. repeat split; lia. }
  rewrite table_update_item_run.
  destruct (store_fault env
              (length (log (log_call (Query (email m)) (tick w)))))
    as [msg|].
  - cbn. repeat split; try done; [constructor|].
    eexists [Query (email m); UpdateItem k _]. rewrite <- app_assoc. cbn.
    repeat split; lia.
  - cbn. repeat split; try done.
    + eapply engine_update; [exact Hidx|exact Hk|].
      unfold engine_sets. right; right; left.
    + apply keys_update_item_in; [not_assigned|].
      destruct (email_index_head_elem _ _ _ _ Hidx) as [Hin _].
      by eapply wf_table_key_elem.
    + eexists [Query (email m); UpdateItem k _]. rewrite <- app_assoc. cbn.
      repeat split; lia.
Qed.

End Effects.

(** ** One record and a whole batch, whatever the store does *)

Section AnyBatch.

Variable env : Env.

Lemma within_budget_refl w : within_budget 0 w w.
Proof.
  unfold within_budget. repeat split; try lia.
  exists []. rewrite app_nil_r. cbn. repeat split; lia.
Qed.

Lemma within_budget_trans (n1 n2 : nat) w w1 w2 :
  within_budget n1 w w1 → within_budget n2 w1 w2 →
  within_budget (n1 + n2) w w2.
Proof.
  intros (H1 & H2 & H3 & H4 & calls1 & Hl1 & Hc1 & Hw1)
         (H5 & H6 & H7 & H8 & calls2 & Hl2 & Hc2 & Hw2).
  unfold within_budget. repeat split; try lia.
  exists (calls1 ++ calls2). rewrite Hl2, Hl1, <- app_assoc.
  rewrite writes_app, !length_app. repeat split; lia.
Qed.

Lemma within_budget_weaken (n n' : nat) w w1 :
  n ≤ n' → within_budget n w w1 → within_budget n' w w1.
Proof.
  intros Hle (H1 & H2 & H3 & H4 & calls & Hl & Hc & Hw).
  unfold within_budget. repeat split; try lia.
  exists calls. repeat split; [done|lia|lia].
Qed.

Lemma subscribe_within_budget m w :
  within_budget 1 w (process_subscribe_operation env m w).2.
Proof.
  destruct (subscribe_effect env m w)
    as (_ & _ & Ht & Hd1 & Hd2 & calls & Hl & Hc & Hw).
  unfold within_budget. repeat split; try lia. by exists calls.
Qed.

Lemma unsubscribe_within_budget m w :
  within_budget 1 w (process_unsubscribe_operation env m w).2.
Proof.
  destruct (unsubscribe_effect env m w)
    as (_ & _ & Ht & Hd & _ & calls & Hl & Hc & Hw).
  unfold within_budget. repeat split; try lia. by exists calls.
Qed.

(** How [handle_record] treats the three kinds of record. *)
Lemma handle_record_cases record c w :
  match parse_message env (body record) with
  | Raise e =>
      handle_record env record c w
      = (Ok (record_failure (receiptHandle record) (exn_message e)
               (count_failed c)), w)
  | Ok m =>
      if is_known m then
        ∃ w1,
          (handle_record env record c w = (Ok (count_processed c), w1)
           ∨ ∃ e, handle_record env record c w
                  = (Ok (record_failure (receiptHandle record) (exn_message e)
                           (count_failed c)), w1)
                  ∧ table w1 = table w)
          ∧ engine_step (table w) (table w1)
          ∧ within_budget 1 w w1
      else handle_record env record c w = (Ok (count_failed c), w)
  end.
Proof.
  destruct record as [h b]. cbn [body receiptHandle].
  destruct (parse_message env b) as [m|e] eqn:Hparse.
  2:{ by apply handle_record_malformed. }
  unfold is_known.
  destruct (decide (operation m = "subscribe")) as [Hs|Hs].
  { rewrite (bool_decide_eq_true_2 _ Hs). cbn [orb].
    destruct (subscribe_effect env m w) as (Hstep & Hraise & _).
    pose proof (subscribe_within_budget m w) as Hbud.
    destruct (process_subscribe_operation env m w) as [[[]|e] w1] eqn:Hrun;
      exists w1; (split; [|by split]).
    - left. apply handle_record_passed. unfold bind, decode. cbn.
      rewrite Hparse. unfold dispatch, bind. rewrite decide_True by done.
      by rewrite Hrun.
    - right. exists e. split; [|by eapply Hraise].
      apply (handle_record_caught env (mkRecord h b)).
      unfold bind, decode. cbn. rewrite Hparse. unfold dispatch, bind.
      rewrite decide_True by done. by rewrite Hrun. }
  rewrite (bool_decide_eq_false_2 _ Hs). cbn [orb].
  destruct (decide (operation m = "unsubscribe")) as [Hu|Hu].
  { rewrite (bool_decide_eq_true_2 _ Hu).
    destruct (unsubscribe_effect env m w) as (Hstep & Hraise & _).
    pose proof (unsubscribe_within_budget m w) as Hbud.
    destruct (process_unsubscribe_operation env m w) as [[[]|e] w1] eqn:Hrun;
      exists w1; (split; [|by split]).
    - left. apply handle_record_passed. unfold bind, decode. cbn.
      rewrite Hparse. unfold dispatch, bind. rewrite decide_False by done.
      rewrite decide_True by done. by rewrite Hrun.
    - right. exists e. split; [|by eapply Hraise].
      apply (handle_record_caught env (mkRecord h b)).
      unfold bind, decode. cbn. rewrite Hparse. unfold dispatch, bind.
      rewrite decide_False by done. rewrite decide_True by done.
      by rewrite Hrun. }
  rewrite (bool_decide_eq_false_2 _ Hu).
  by apply (handle_record_unknown_operation env h b m).
Qed.

Lemma handle_record_world record c w :
  engine_step (table w) (table (handle_record env record c w).2)
  ∧ within_budget 1 w (handle_record env record c w).2.
Proof.
  pose proof (handle_record_cases record c w) as Hcases.
  destruct (parse_message env (body record)) as [m|e].
  - destruct (is_known m).
    + destruct Hcases as (w1 & [Hrun|(e & Hrun & _)] & Hstep & Hbud);
        by rewrite Hrun.
    + rewrite Hcases. split; [constructor|].
      eapply within_budget_weaken; [|apply within_budget_refl]. lia.
  - rewrite Hcases. split; [constructor|].
    eapply within_budget_weaken; [|apply within_budget_refl]. lia.
Qed.

Lemma for_each_record_world records :
  ∀ c w,
    rtc engine_step (table w) (table (for_each_record env records c w).2)
    ∧ within_budget (length records) w (for_each_record env records c w).2.
Proof.
  induction records as [|record rest IH]; intros c w.
  - split; [done|apply within_budget_refl].
  - destruct (handle_record_world record c w) as [Hstep Hbud].
    destruct (handle_record_total env record c w) as (c1 & w1 & Hone & _).
    cbn [for_each_record]. unfold bind. rewrite Hone in *. cbn in Hstep, Hbud.
    destruct (IH c1 w1) as [Hsteps Hbuds]. split.
    + by eapply rtc_l.
    + change (length (record :: rest)) with (1 + length rest).
      by eapply within_budget_trans.
Qed.

Lemma lambda_handler_world event w :
  (lambda_handler env event w).2
  = (for_each_record env (default [] (Records event)) no_counts w).2.
Proof.
  unfold lambda_handler, bind.
  by destruct (for_each_record env (default [] (Records event)) no_counts w)
    as [[c1|e] w1].
Qed.

End AnyBatch.

(** ** Properties of a whole batch *)

Lemma rtc_engine_step_wf (t t' : table_t) :
  rtc engine_step t t' → wf_table t → wf_table t'.
Proof. induction 1; eauto using engine_step_wf. Qed.

Lemma rtc_engine_step_length (t t' : table_t) :
  rtc engine_step t t' → length t ≤ length t'.
Proof.
  induction 1 as [|t1 t2 t3 Hstep _ IH]; [done|].
  etrans; [by apply engine_step_length|done].
Qed.

Lemma rtc_engine_step_unique_emails (t t' : table_t) :
  rtc engine_step t t' → wf_table t → unique_emails t →
  wf_table t' ∧ unique_emails t'.
Proof.
  induction 1 as [|t1 t2 t3 Hstep _ IH]; [done|]. intros Hwf Huniq.
  apply IH; [by eapply engine_step_wf|by eapply engine_step_unique_emails].
Qed.

Lemma engine_step_keys (t t' : table_t) (k : attr) :
  engine_step t t' → Some k ∈ key_of <$> t → Some k ∈ key_of <$> t'.
Proof.
  intros [|sid m now Habs|e sub rest k' now sets Hidx Hk Hsets] Hin; [done|..].
  - rewrite keys_put_item_in by done. case_decide; [done|].
    apply elem_of_app. by left.
  - destruct (email_index_head_elem _ _ _ _ Hidx) as [Hsub _].
    rewrite keys_update_item_in; [done|by eapply engine_sets_attrs|].
    by eapply wf_table_key_elem.
Qed.

Lemma rtc_engine_step_keys (t t' : table_t) (k : attr) :
  rtc engine_step t t' → Some k ∈ key_of <$> t → Some k ∈ key_of <$> t'.
Proof. induction 1; eauto using engine_step_keys. Qed.

(** X1.  Whatever the decoder returns and whatever the store refuses, a
    batch run on a table with unique ids leaves a table with unique ids in
    which every id of the old table is still an id, and which is at least
    as long as before.  (The record under an id can be another one
    afterwards: a [put_item] whose identifier collides replaces it.) *)
Theorem batch_keeps_ids_unique (env : Env) (event : Event) (w : World) :
  wf_table (table w) →
  wf_table (table (lambda_handler env event w).2)
  ∧ (∀ k : attr,
       Some k ∈ key_of <$> table w →
       Some k ∈ key_of <$> table (lambda_handler env event w).2)
  ∧ length (table w) ≤ length (table (lambda_handler env event w).2).
Proof.
  intros Hwf. rewrite lambda_handler_world.
  destruct (for_each_record_world env (default [] (Records event))
              no_counts w) as [Hsteps _].
  split; [by eapply rtc_engine_step_wf|].
  split; [intros k; by apply rtc_engine_step_keys|].
  by apply rtc_engine_step_length.
Qed.

Lemma batch_keeps_ids_unique_witness :
  let old := Demo.stored "uuid-0" "z@x.com" "active" 50 60 in
  let w := Demo.world_of [old; Demo.other] in
  let event :=
    {| Records := Some [mkRecord (Some "h1") (Some "sub a@x.com")] |} in
  wf_table (table w)
  ∧ wf_table (table (lambda_handler Demo.env event w).2)
  ∧ Some (AStr "uuid-0")
    ∈ key_of <$> table (lambda_handler Demo.env event w).2
  ∧ table (lambda_handler Demo.env event w).2
    = [new_subscriber "uuid-0" Demo.subscribe_a 5000; Demo.other].
Proof.
  intros old w event.
  assert (wf_table (table w)) as Hwf by compute_done.
  destruct (batch_keeps_ids_unique Demo.env event w Hwf) as (Hwf' & Hkeys & _).
  split; [exact Hwf|]. split; [exact Hwf'|]. split; [|compute_done].
  apply Hkeys. compute_done.
Defined.

(** X2.  The engine looks an email up before it creates a record, so a
    batch run on a table with unique ids in which no email is carried by
    two records leaves such a table, whatever the decoder and the store
    do. *)
Theorem batch_keeps_emails_unique (env : Env) (event : Event) (w : World) :
  wf_table (table w) →
  unique_emails (table w) →
  unique_emails (table (lambda_handler env event w).2).
Proof.
  intros Hwf Huniq. rewrite lambda_handler_world.
  destruct (for_each_record_world env (default [] (Records event))
              no_counts w) as [Hsteps _].
  by eapply rtc_engine_step_unique_emails.
Qed.

Lemma batch_keeps_emails_unique_witness :
  let w := Demo.world_of [Demo.other] in
  let w1 := (lambda_handler Demo.env
               {| Records := Some [mkRecord (Some "h1") (Some "sub a@x.com");
                                   mkRecord (Some "h2") (Some "sub a@x.com");
                                   mkRecord (Some "h3") (Some "sub b@x.com")] |}
               w).2 in
  wf_table (table w)
  ∧ unique_emails (table w)
  ∧ unique_emails (table w1)
  ∧ length (table w1) = 2.
Proof.
  intros w w1.
  assert (wf_table (table w)) as Hwf by compute_done.
  assert (unique_emails (table w)) as Huniq
    by (intros e; apply (length_filter _ [Demo.other])).
  split; [exact Hwf|]. split; [exact Huniq|]. split.
  - exact (batch_keeps_emails_unique Demo.env _ w Hwf Huniq).
  - compute_done.
Defined.

(** X3.  A record that [lambda_handler] does not count as processed has
    changed nothing in the table: this holds for a body that does not
    decode, for an unknown operation, and for an intent during which the
    lookup or the write was refused by the store. *)
Theorem unprocessed_record_leaves_table (env : Env) (record : SqsRecord)
    (c c1 : Counters) (w w1 : World) :
  handle_record env record c w = (Ok c1, w1) →
  processed_count c1 = processed_count c →
  table w1 = table w.
Proof.
  intros Hrun Hsame.
  pose proof (handle_record_cases env record c w) as Hcases.
  destruct (parse_message env (body record)) as [m|e].
  - destruct (is_known m).
    + destruct Hcases as (w2 & [Hrun'|(e & Hrun' & Htab)] & _).
      * rewrite Hrun' in Hrun. simplify_eq. cbn in Hsame. lia.
      * rewrite Hrun' in Hrun. by simplify_eq.
    + rewrite Hcases in Hrun. by simplify_eq.
  - rewrite Hcases in Hrun. by simplify_eq.
Qed.

Lemma unprocessed_record_leaves_table_witness :
  let w := Demo.world_of [Demo.other] in
  let r := handle_record (Demo.env_failing_at 1)
             (mkRecord (Some "h1") (Some "sub a@x.com")) no_counts w in
  r.1 = Ok (record_failure (Some "h1")
              "ProvisionedThroughputExceededException"
              (count_failed no_counts))
  ∧ writes (log r.2)
    = [PutItem (new_subscriber "uuid-0" Demo.subscribe_a 5000)]
  ∧ table r.2 = [Demo.other].
Proof.
  intros w r.
  assert (r = (Ok (record_failure (Some "h1")
                     "ProvisionedThroughputExceededException"
                     (count_failed no_counts)), r.2)) as Hrun
    by compute_done.
  split; [by rewrite Hrun|]. split; [compute_done|].
  exact (unprocessed_record_leaves_table (Demo.env_failing_at 1) _ _ _ w r.2
           Hrun eq_refl).
Defined.

(** X4.  For a batch of [n] records the handler reads the clock at most
    [n] times, draws at most [n] identifiers, and calls the table at most
    [2 * n] times, of which at most [n] are writes: one lookup and at most
    one write per record. *)
Theorem batch_store_calls_bounded (env : Env) (event : Event) (w : World) :
  let n := length (default [] (Records event)) in
  let w1 := (lambda_handler env event w).2 in
  ticks w1 ≤ ticks w + n
  ∧ drawn w1 ≤ drawn w + n
  ∧ ∃ calls, log w1 = log w ++ calls
             ∧ length calls ≤ 2 * n
             ∧ length (writes calls) ≤ n.
Proof.
  intros n w1. subst n w1. rewrite lambda_handler_world.
  destruct (for_each_record_world env (default [] (Records event))
              no_counts w) as [_ (_ & Ht & _ & Hd & Hcalls)].
  by repeat split.
Qed.

Section Accounting.

Variable env : Env.

Lemma is_known_spec m : is_known m = true ↔ known_operation m.
Proof.
  unfold is_known, known_operation.
  rewrite orb_true_iff, !bool_decide_eq_true. done.
Qed.

(** What one record adds to the three counters. *)
Lemma handle_record_accounting record c w c1 w1 :
  handle_record env record c w = (Ok c1, w1) →
  ∃ extra,
    failed_messages c1 = failed_messages c ++ extra
    ∧ failed_count c1
      = failed_count c + length extra + (if unknown env record then 1 else 0)
    ∧ processed_count c1
      ≤ processed_count c + length (option_list (known_message env record))
    ∧ option_list (decode_failure env record) `sublist_of` extra
    ∧ receipt_handle <$> extra `sublist_of` [receiptHandle record].
Proof.
  intros Hrun.
  pose proof (handle_record_cases env record c w) as Hcases.
  unfold unknown, known_message, decode_failure.
  destruct (parse_message env (body record)) as [m|e].
  - destruct (is_known m).
    + destruct Hcases as (w2 & [Hrun'|(e & Hrun' & _)] & _);
        rewrite Hrun' in Hrun; simplify_eq.
      * exists []. cbn. rewrite app_nil_r.
        repeat split; try lia; [constructor|by apply sublist_cons].
      * eexists [_]. cbn. repeat split; try lia; [by apply sublist_cons|done].
    + rewrite Hcases in Hrun. simplify_eq. exists []. cbn.
      rewrite app_nil_r.
      repeat split; try lia; [constructor|by apply sublist_cons].
  - rewrite Hcases in Hrun. simplify_eq. eexists [_]. cbn.
    repeat split; try lia; done.
Qed.

Lemma for_each_record_accounting records :
  ∀ c w c1 w1,
    for_each_record env records c w = (Ok c1, w1) →
    ∃ extra,
      failed_messages c1 = failed_messages c ++ extra
      ∧ failed_count c1
        = failed_count c + length extra
          + length (List.filter (unknown env) records)
      ∧ processed_count c1
        ≤ processed_count c + length (omap (known_message env) records)
      ∧ omap (decode_failure env) records `sublist_of` extra
      ∧ receipt_handle <$> extra `sublist_of` receiptHandle <$> records.
Proof.
  induction records as [|record rest IH]; intros c w c1 w1 Hrun.
  - cbn in Hrun. unfold ret in Hrun. simplify_eq. exists []. cbn.
    rewrite app_nil_r. repeat split; try lia; constructor.
  - cbn [for_each_record] in Hrun. unfold bind in Hrun.
    destruct (handle_record env record c w) as [[c2|e] w2] eqn:Hone;
      [|done].
    destruct (handle_record_accounting _ _ _ _ _ Hone)
      as (ex1 & Hfm1 & Hf1 & Hp1 & Hd1 & Hh1).
    destruct (IH _ _ _ _ Hrun) as (ex2 & Hfm2 & Hf2 & Hp2 & Hd2 & Hh2).
    exists (ex1 ++ ex2). rewrite Hfm2, Hfm1, <- app_assoc.
    split; [done|]. split.
    { rewrite Hf2, Hf1, length_app. cbn [List.filter].
      destruct (unknown env record); cbn; lia. }
    split.
    { etrans; [exact Hp2|]. cbn [omap list_omap].
      destruct (known_message env record); cbn in *; lia. }
    split.
    { cbn [omap list_omap].
      destruct (decode_failure env record) as [x|]; cbn in Hd1.
      - change (x :: omap (decode_failure env) rest)
          with ([x] ++ omap (decode_failure env) rest).
        by apply sublist_app.
      - change (omap (decode_failure env) rest)
          with ([] ++ omap (decode_failure env) rest).
        by apply sublist_app. }
    rewrite fmap_app, fmap_cons.
    change (receiptHandle record :: (receiptHandle <$> rest))
      with ([receiptHandle record] ++ (receiptHandle <$> rest)).
    by apply sublist_app.
Qed.

Lemma record_classes (record : SqsRecord) :
  (∃ m, parse_message env (body record) = Ok m ∧ known_operation m
        ∧ known_message env record = Some m
        ∧ decode_failure env record = None
        ∧ unknown env record = false)
  ∨ (∃ m, parse_message env (body record) = Ok m
          ∧ operation m ≠ "subscribe" ∧ operation m ≠ "unsubscribe"
          ∧ known_message env record = None
          ∧ decode_failure env record = None
          ∧ unknown env record = true)
  ∨ (∃ e, parse_message env (body record) = Raise e
          ∧ known_message env record = None
          ∧ decode_failure env record
            = Some (mkFailed (receiptHandle record) (exn_message e))
          ∧ unknown env record = false).
Proof.
  unfold known_message, decode_failure, unknown.
  destruct (parse_message env (body record)) as [m|e].
  - destruct (is_known m) eqn:Hknown.
    + left. exists m. repeat split; try done. by apply is_known_spec.
    + right; left. exists m. unfold is_known in Hknown.
      apply orb_false_iff in Hknown as [Hs Hu].
      apply bool_decide_eq_false in Hs, Hu. by repeat split.
  - right; right. by exists e.
Qed.

Lemma for_each_record_reliable records :
  ∀ c w,
    reliable env → wf_table (table w) →
    ∃ w1,
      for_each_record env records c w
      = (Ok {| processed_count :=
                 processed_count c
                 + length (omap (known_message env) records);
               failed_count :=
                 failed_count c
                 + length (omap (decode_failure env) records)
                 + length (List.filter (unknown env) records);
               failed_messages :=
                 failed_messages c ++ omap (decode_failure env) records |},
         w1)
      ∧ apply_all env (omap (known_message env) records) w = (Ok tt, w1).
Proof.
  induction records as [|record rest IH]; intros c w Hrel Hwf.
  - exists w. cbn. rewrite app_nil_r, !Nat.add_0_r. by destruct c.
  - cbn [for_each_record omap list_omap List.filter]. unfold bind at 1.
    destruct (record_classes record)
      as [(m & Hparse & Hop & -> & -> & ->)
         |[(m & Hparse & Hs & Hu & -> & -> & ->)
          |(e & Hparse & -> & -> & ->)]];
      destruct record as [h b]; cbn [body receiptHandle] in *.
    + destruct (process_operation_succeeds env m w Hrel Hwf)
        as (w1 & Hrun & Hwf1).
      rewrite (handle_record_applies env h b m c w w1 Hparse Hop Hrun).
      destruct (IH (count_processed c) w1 Hrel Hwf1) as (w2 & Hrest & Hall).
      exists w2. rewrite Hrest. cbn [apply_all]. unfold bind.
      rewrite Hrun. split; [|done]. cbn. do 2 f_equal. f_equal; lia.
    + rewrite (handle_record_unknown_operation env h b m c w Hparse Hs Hu).
      destruct (IH (count_failed c) w Hrel Hwf) as (w2 & Hrest & Hall).
      exists w2. rewrite Hrest. split; [|done]. cbn.
      do 2 f_equal. f_equal; lia.
    + rewrite (handle_record_malformed env h b e c w Hparse).
      destruct (IH (record_failure h (exn_message e) (count_failed c)) w
                  Hrel Hwf) as (w2 & Hrest & Hall).
      exists w2. rewrite Hrest. split; [|done]. cbn.
      rewrite <- app_assoc. do 2 f_equal. f_equal; lia.
Qed.

End Accounting.

(** X5.  Whatever the store does, the result of a batch accounts for every
    failure: [failed] is the number of entries of [failed_messages] plus
    the number of records with an unknown operation, which are counted but
    never listed.  Every body that does not decode is listed, in the order
    of the batch; the handles listed are handles of the batch, in its
    order; and [processed] is at most the number of records that decode to
    a known operation. *)
Theorem batch_failures_accounted (env : Env) (event : Event) (w : World) :
  let records := default [] (Records event) in
  ∃ resp w1,
    lambda_handler env event w = (Ok resp, w1)
    ∧ Response.failed resp
      = length (Response.failed_messages resp)
        + length (List.filter (unknown env) records)
    ∧ Response.processed resp ≤ length (omap (known_message env) records)
    ∧ omap (decode_failure env) records
      `sublist_of` Response.failed_messages resp
    ∧ receipt_handle <$> Response.failed_messages resp
      `sublist_of` receiptHandle <$> records.
Proof.
  intros records.
  destruct (for_each_record_total env records no_counts w)
    as (c1 & w1 & Hrun & _).
  destruct (for_each_record_accounting env records _ _ _ _ Hrun)
    as (extra & Hfm & Hf & Hp & Hd & Hh).
  cbn in Hfm, Hf, Hp.
  eexists _, w1. unfold lambda_handler, bind. fold records. rewrite Hrun.
  split; [done|]. cbn. rewrite Hfm, Hf. by repeat split.
Qed.

(** X6.  When the store answers every call and the ids of the table are
    unique, the result of a batch is determined by the decoder alone:
    [processed] counts the records that decode to a known operation,
    [failed_messages] lists exactly the bodies that do not decode, in
    order, [failed] adds the unknown operations to them, and the world is
    the one that applying the known intents one after the other leaves. *)
Theorem reliable_batch_result (env : Env) (event : Event) (w : World) :
  reliable env →
  wf_table (table w) →
  let records := default [] (Records event) in
  ∃ w1,
    lambda_handler env event w
    = (Ok {| Response.statusCode := 200;
             Response.processed :=
               length (omap (known_message env) records);
             Response.failed :=
               length (omap (decode_failure env) records)
               + length (List.filter (unknown env) records);
             Response.failed_messages :=
               omap (decode_failure env) records |}, w1)
    ∧ apply_all env (omap (known_message env) records) w = (Ok tt, w1).
Proof.
  intros Hrel Hwf records.
  destruct (for_each_record_reliable env records no_counts w Hrel Hwf)
    as (w1 & Hrun & Hall).
  exists w1. unfold lambda_handler, bind. fold records. rewrite Hrun.
  by split.
Qed.

Lemma reliable_batch_result_witness :
  let event :=
    {| Records := Some [mkRecord (Some "h1") (Some "sub a@x.com");
                        mkRecord (Some "h2") (Some "purge a@x.com");
                        mkRecord (Some "h3") (Some "sub not-an-email");
                        mkRecord (Some "h4") (Some "unsub a@x.com")] |} in
  let r := lambda_handler Demo.env event Demo.empty_world in
  r.1 = Ok {| Response.statusCode := 200;
              Response.processed := 2;
              Response.failed := 2;
              Response.failed_messages :=
                [mkFailed (Some "h3")
                   "1 validation error for OperationMessage"] |}
  ∧ (process_subscribe_operation Demo.env Demo.subscribe_a ;;;
     process_unsubscribe_operation Demo.env Demo.unsubscribe_a)
      Demo.empty_world
    = (Ok tt, r.2).
Proof.
  intros event r.
  assert (wf_table (table Demo.empty_world)) as Hwf by compute_done.
  destruct (reliable_batch_result Demo.env event Demo.empty_world
              Demo.env_reliable Hwf) as (w1 & Hrun & Hall).
  subst r. rewrite Hrun. split; [reflexivity|]. exact Hall.
Defined.

(** ** More of the state machine *)

(** X7.  An unsubscribe intent whose email resolves to a record, whatever
    its status, makes the engine issue one lookup and one [update_item] on
    the key of that record, assigning [status = inactive] and
    [updated_at = now].  No record is created, the record keeps every
    other attribute, and every other record stays as it was. *)
Theorem unsubscribe_found_deactivates (env : Env) (m : OperationMessage)
    (w : World) (sub : item) (rest : list item) (k : attr) :
  wf_table (table w) →
  email_index (table w) (email m) = sub :: rest →
  key_of sub = Some k →
  calls_succeed env w 2 →
  let now := utcnow env (ticks w) in
  let sets := [("status", AStr "inactive"); ("updated_at", ANum now)] in
  let sub' := apply_sets sets sub in
  let r := process_unsubscribe_operation env m w in
  r.1 = Ok tt
  ∧ log r.2 = log w ++ [Query (email m); UpdateItem k sets]
  ∧ table r.2 = update_if_key k sets <$> table w
  ∧ length (table r.2) = length (table w)
  ∧ sub' ∈ table r.2
  ∧ (∀ it : item, it ∈ table w → it ≠ sub → it ∈ table r.2)
  ∧ sub' !! "status" = Some (AStr "inactive")
  ∧ sub' !! "updated_at" = Some (ANum now)
  ∧ ∀ a : string, a ≠ "status" → a ≠ "updated_at" → sub' !! a = sub !! a.
Proof.
  intros Hwf Hidx Hk Hok now sets sub' r.
  subst r. rewrite (unsubscribe_found_run env m w sub rest k) by done.
  cbn [fst snd].
  destruct (updated_world_facts w (email m) k sets sub rest Hwf Hidx Hk)
    as (Hlog & Htab & Hlen & Hsub & Hrest).
  split; [done|]. split; [exact Hlog|]. split; [exact Htab|].
  split; [exact Hlen|]. split; [exact Hsub|]. split; [exact Hrest|].
  split.
  { subst sub' sets. cbn. rewrite lookup_insert_ne by done.
    apply lookup_insert_eq. }
  split; [subst sub' sets; cbn; apply lookup_insert_eq|].
  intros a Ha1 Ha2. apply apply_sets_lookup_ne. not_assigned.
Qed.

Lemma unsubscribe_found_deactivates_witness :
  let w := Demo.world_of [Demo.other; Demo.active_a] in
  let r := process_unsubscribe_operation Demo.env Demo.unsubscribe_a w in
  (wf_table (table w) ∧ email_index (table w) "a@x.com" = [Demo.active_a])
  ∧ r.1 = Ok tt
  ∧ table r.2
    = [Demo.other; Demo.stored "id-a" "a@x.com" "inactive" 100 5000].
Proof.
  intros w r.
  assert (wf_table (table w)) as Hwf by compute_done.
  assert (email_index (table w) (email Demo.unsubscribe_a) = [Demo.active_a])
    as Hidx by compute_done.
  pose proof (unsubscribe_found_deactivates Demo.env Demo.unsubscribe_a w
                Demo.active_a [] (AStr "id-a") Hwf Hidx eq_refl
                (Demo.env_calls_succeed _ 2)) as (H1 & _ & H3 & _).
  split; [by split|]. split; [exact H1|].
  etrans; [exact H3|]. compute_done.
Defined.

(** X8.  The unsubscribe processing never creates and never removes a
    record: whatever the store does, the ids of the table are afterwards
    the same, in the same order, and no identifier is drawn. *)
Theorem unsubscribe_keeps_ids (env : Env) (m : OperationMessage) (w : World) :
  key_of <$> table (process_unsubscribe_operation env m w).2
  = key_of <$> table w
  ∧ drawn (process_unsubscribe_operation env m w).2 = drawn w.
Proof.
  destruct (unsubscribe_effect env m w) as (_ & _ & _ & Hd & Hk & _).
  by split.
Qed.

(** X9.  The subscribe processing reads a missing [status] as [inactive]
    and any other value as if it were [active]: a record without [status]
    is given [status = active], while a record whose [status] is neither
    missing nor [inactive] keeps it and only has [updated_at] set. *)
Theorem subscribe_reads_status_by_default (env : Env) (m : OperationMessage)
    (w : World) (sub : item) (rest : list item) (k : attr) :
  wf_table (table w) →
  email_index (table w) (email m) = sub :: rest →
  key_of sub = Some k →
  calls_succeed env w 2 →
  let now := utcnow env (ticks w) in
  let r := process_subscribe_operation env m w in
  (sub !! "status" = None →
     r.1 = Ok tt
     ∧ table r.2
       = update_if_key k
           [("status", AStr "active"); ("updated_at", ANum now)]
         <$> table w
     ∧ <["updated_at" := ANum now]> (<["status" := AStr "active"]> sub)
       ∈ table r.2)
  ∧ (∀ v : attr,
       sub !! "status" = Some v → v ≠ AStr "inactive" →
       r.1 = Ok tt
       ∧ table r.2 = update_if_key k [("updated_at", ANum now)] <$> table w
       ∧ <["updated_at" := ANum now]> sub ∈ table r.2
       ∧ (<["updated_at" := ANum now]> sub) !! "status" = Some v).
Proof.
  intros Hwf Hidx Hk Hok now r. split.
  - intros Hst. subst r.
    rewrite (subscribe_found_run env m w sub rest k) by done.
    rewrite Hst. cbn [default]. rewrite decide_True by done. cbn [fst snd].
    destruct (updated_world_facts w (email m) k
                [("status", AStr "active"); ("updated_at", ANum now)]
                sub rest Hwf Hidx Hk) as (_ & Htab & _ & Hsub & _).
    by repeat split.
  - intros v Hst Hv. subst r.
    rewrite (subscribe_found_run env m w sub rest k) by done.
    rewrite Hst. cbn [default]. rewrite decide_False by done. cbn [fst snd].
    destruct (updated_world_facts w (email m) k [("updated_at", ANum now)]
                sub rest Hwf Hidx Hk) as (_ & Htab & _ & Hsub & _).
    repeat split; try done. by rewrite lookup_insert_ne.
Qed.

Lemma subscribe_reads_status_by_default_witness :
  let bare := delete "status" Demo.active_a in
  let odd := Demo.stored "id-b" "b@x.com" "bounced" 50 60 in
  let w := Demo.world_of [bare; odd] in
  wf_table (table w)
  ∧ table (process_subscribe_operation Demo.env Demo.subscribe_a w).2
    = [Demo.stored "id-a" "a@x.com" "active" 100 5000; odd]
  ∧ table (process_subscribe_operation Demo.env
             (Demo.msg "subscribe" "b@x.com" 1000) w).2
    = [bare; Demo.stored "id-b" "b@x.com" "bounced" 50 5000].
Proof.
  intros bare odd w.
  assert (wf_table (table w)) as Hwf by compute_done.
  assert (email_index (table w) (email Demo.subscribe_a) = [bare]) as Hidx
    by compute_done.
  assert (email_index (table w) "b@x.com" = [odd]) as Hidx' by compute_done.
  destruct (subscribe_reads_status_by_default Demo.env Demo.subscribe_a w
              bare [] (AStr "id-a") Hwf Hidx eq_refl
              (Demo.env_calls_succeed _ 2)) as [Hnone _].
  destruct (subscribe_reads_status_by_default Demo.env
              (Demo.msg "subscribe" "b@x.com" 1000) w
              odd [] (AStr "id-b") Hwf Hidx' eq_refl
              (Demo.env_calls_succeed _ 2)) as [_ Hsome].
  destruct (Hnone eq_refl) as (_ & Htab & _).
  destruct (Hsome (AStr "bounced") eq_refl) as (_ & Htab' & _); [done|].
  split; [exact Hwf|]. split.
  - etrans; [exact Htab|]. compute_done.
  - etrans; [exact Htab'|]. compute_done.
Defined.

(** X10.  Only the email of an intent matters once a record exists: the
    unsubscribe processing depends on nothing else, and the subscribe
    processing of an email that the index knows depends on nothing else,
    so a repeated subscribe never replaces the stored [name],
    [ip_address] or [user_agent]. *)
Theorem existing_record_ignores_intent_details (env : Env)
    (m m' : OperationMessage) (w : World) :
  email m = email m' →
  process_unsubscribe_operation env m w
  = process_unsubscribe_operation env m' w
  ∧ (email_index (table w) (email m) ≠ [] →
     process_subscribe_operation env m w
     = process_subscribe_operation env m' w).
Proof.
  intros Heq. split.
  - rewrite !process_unsubscribe_operation_run. by rewrite Heq.
  - intros Hfound. rewrite !process_subscribe_operation_run.
    rewrite <- Heq.
    destruct (store_fault env (length (log w))); [done|].
    by destruct (email_index (table w) (email m)).
Qed.

Lemma existing_record_ignores_intent_details_witness :
  let w := Demo.world_of [Demo.active_a] in
  let m' := {| operation := "subscribe"; email := "a@x.com";
               name := Some "Somebody Else"; ip_address := "8.8.8.8";
               user_agent := "other agent"; timestamp := 77 |} in
  email_index (table w) "a@x.com" ≠ []
  ∧ process_subscribe_operation Demo.env m' w
    = process_subscribe_operation Demo.env Demo.subscribe_a w
  ∧ table (process_subscribe_operation Demo.env m' w).2
    = [Demo.stored "id-a" "a@x.com" "active" 100 5000].
Proof.
  intros w m'.
  assert (email_index (table w) (email m') ≠ []) as Hfound by compute_done.
  destruct (existing_record_ignores_intent_details Demo.env m'
              Demo.subscribe_a w eq_refl) as [_ Hsub].
  split; [exact Hfound|]. split; [exact (Hsub Hfound)|compute_done].
Defined.

(** ** Sequences of intents for one email *)

Section Lifecycle.

Variable env : Env.

Lemma calls_succeed_after (a b : nat) w w1 :
  calls_succeed env w (a + b) →
  length (log w1) = length (log w) + a →
  calls_succeed env w1 b.
Proof.
  intros Hok Hlen j Hj. rewrite Hlen, <- Nat.add_assoc. apply Hok. lia.
Qed.

Lemma subscribe_absent_single m w :
  wf_table (table w) →
  email_index (table w) (email m) = [] →
  calls_succeed env w 2 →
  ∃ w1,
    process_subscribe_operation env m w = (Ok tt, w1)
    ∧ wf_table (table w1)
    ∧ ticks w1 = S (ticks w)
    ∧ length (log w1) = length (log w) + 2
    ∧ email_index (table w1) (email m)
      = [new_subscriber (uuid4 env (drawn w)) m (utcnow env (ticks w))].
Proof.
  intros Hwf Habs Hok. eexists. split; [by apply subscribe_absent_run|].
  cbn. split; [by apply wf_table_put|]. split; [done|].
  split; [rewrite !length_app; cbn; lia|].
  by apply email_index_put_absent.
Qed.

Lemma unsubscribe_absent_single m w :
  email_index (table w) (email m) = [] →
  calls_succeed env w 1 →
  ∃ w1,
    process_unsubscribe_operation env m w = (Ok tt, w1)
    ∧ table w1 = table w
    ∧ ticks w1 = S (ticks w)
    ∧ drawn w1 = drawn w
    ∧ length (log w1) = length (log w) + 1.
Proof.
  intros Habs Hok. eexists. split; [by apply unsubscribe_absent_run|].
  cbn. by rewrite length_app.
Qed.

Lemma updated_single w (e : string) (sub : item) k sets now c1 c2 :
  wf_table (table w) →
  email_index (table w) e = [sub] →
  key_of sub = Some k →
  sets ∈ engine_sets now →
  let w1 := with_table (update_item_in k sets (table w))
              (log_call c2 (log_call c1 (tick w))) in
  wf_table (table w1)
  ∧ ticks w1 = S (ticks w)
  ∧ length (log w1) = length (log w) + 2
  ∧ email_index (table w1) e = [apply_sets sets sub]
  ∧ key_of (apply_sets sets sub) = Some k.
Proof.
  intros Hwf Hidx Hk Hsets w1.
  destruct (email_index_head_elem _ _ _ _ Hidx) as [Hin _].
  assert (Some k ∈ key_of <$> table w) as Hkin
    by (by eapply wf_table_key_elem).
  split.
  { apply wf_table_update; [by eapply engine_sets_attrs|done|done]. }
  split; [done|]. split; [cbn; rewrite !length_app; cbn; lia|]. split.
  - cbn. rewrite update_item_in_present; [|apply Hwf|done].
    rewrite email_index_update by (by eapply engine_sets_attrs).
    rewrite Hidx. cbn. unfold update_if_key. by rewrite decide_True.
  - rewrite <- Hk. apply key_of_apply_sets. by eapply engine_sets_attrs.
Qed.

Lemma unsubscribe_single m w (sub : item) k :
  wf_table (table w) →
  email_index (table w) (email m) = [sub] →
  key_of sub = Some k →
  calls_succeed env w 2 →
  let sets := [("status", AStr "inactive");
               ("updated_at", ANum (utcnow env (ticks w)))] in
  ∃ w1,
    process_unsubscribe_operation env m w = (Ok tt, w1)
    ∧ wf_table (table w1)
    ∧ ticks w1 = S (ticks w)
    ∧ length (log w1) = length (log w) + 2
    ∧ email_index (table w1) (email m) = [apply_sets sets sub]
    ∧ key_of (apply_sets sets sub) = Some k.
Proof.
  intros Hwf Hidx Hk Hok sets. eexists.
  split; [by eapply unsubscribe_found_run|].
  apply (updated_single w (email m) sub k sets (utcnow env (ticks w)));
    try done.
  unfold engine_sets. right; right; left.
Qed.

Lemma subscribe_single m w (sub : item) k :
  wf_table (table w) →
  email_index (table w) (email m) = [sub] →
  key_of sub = Some k →
  calls_succeed env w 2 →
  let now := utcnow env (ticks w) in
  let sets :=
    if decide (default (AStr "inactive") (sub !! "status") = AStr "inactive")
    then [("status", AStr "active"); ("updated_at", ANum now)]
    else [("updated_at", ANum now)] in
  ∃ w1,
    process_subscribe_operation env m w = (Ok tt, w1)
    ∧ wf_table (table w1)
    ∧ ticks w1 = S (ticks w)
    ∧ length (log w1) = length (log w) + 2
    ∧ email_index (table w1) (email m) = [apply_sets sets sub]
    ∧ key_of (apply_sets sets sub) = Some k.
Proof.
  intros Hwf Hidx Hk Hok now sets. eexists.
  split; [by eapply subscribe_found_run|].
  apply (updated_single w (email m) sub k sets now); try done.
  subst sets. unfold engine_sets. case_decide; [left|right; left].
Qed.

End Lifecycle.

(** X11.  For an email that the index does not know, with the store
    answering, the order of two opposite intents decides the outcome:
    unsubscribe then subscribe leaves exactly one record, created by the
    subscribe at the second clock reading and active; subscribe then
    unsubscribe leaves exactly one record, created at the first clock
    reading, inactive, with [updated_at] the second reading. *)
Theorem opposite_intents_in_order (env : Env) (ms mu : OperationMessage)
    (w : World) :
  email mu = email ms →
  wf_table (table w) →
  email_index (table w) (email ms) = [] →
  calls_succeed env w 4 →
  let t0 := utcnow env (ticks w) in
  let t1 := utcnow env (S (ticks w)) in
  let sid := uuid4 env (drawn w) in
  let r1 := (process_unsubscribe_operation env mu ;;;
             process_subscribe_operation env ms) w in
  let r2 := (process_subscribe_operation env ms ;;;
             process_unsubscribe_operation env mu) w in
  (r1.1 = Ok tt
   ∧ email_index (table r1.2) (email ms) = [new_subscriber sid ms t1])
  ∧ (r2.1 = Ok tt
     ∧ email_index (table r2.2) (email ms)
       = [<["updated_at" := ANum t1]>
            (<["status" := AStr "inactive"]> (new_subscriber sid ms t0))]).
Proof.
  intros Hmail Hwf Habs Hok t0 t1 sid r1 r2. split.
  - subst r1. unfold bind.
    destruct (unsubscribe_absent_single env mu w) as
      (w1 & Hrun & Htab & Ht & Hd & Hlen).
    { by rewrite Hmail. }
    { eapply calls_succeed_le; [|exact Hok]. lia. }
    rewrite Hrun.
    destruct (subscribe_absent_single env ms w1) as
      (w2 & Hrun2 & _ & _ & _ & Hidx).
    { by rewrite Htab. }
    { by rewrite Htab. }
    { eapply calls_succeed_le;
        [|apply (calls_succeed_after env 1 3 w w1 Hok Hlen)]. lia. }
    rewrite Hrun2. split; [done|]. cbn [snd].
    rewrite Hidx, Hd, Ht. done.
  - subst r2. unfold bind.
    destruct (subscribe_absent_single env ms w Hwf Habs) as
      (w1 & Hrun & Hwf1 & Ht & Hlen & Hidx).
    { eapply calls_succeed_le; [|exact Hok]. lia. }
    rewrite Hrun. rewrite <- Hmail in Hidx.
    destruct (unsubscribe_single env mu w1 _ (AStr sid) Hwf1 Hidx eq_refl)
      as (w2 & Hrun2 & _ & _ & _ & Hidx2 & _).
    { apply (calls_succeed_after env 2 2 w w1 Hok Hlen). }
    rewrite Hrun2. split; [done|]. cbn [snd].
    rewrite <- Hmail, Hidx2, Ht. done.
Qed.

Lemma opposite_intents_in_order_witness :
  let w := Demo.world_of [Demo.other] in
  let r1 := (process_unsubscribe_operation Demo.env Demo.unsubscribe_a ;;;
             process_subscribe_operation Demo.env Demo.subscribe_a) w in
  let r2 := (process_subscribe_operation Demo.env Demo.subscribe_a ;;;
             process_unsubscribe_operation Demo.env Demo.unsubscribe_a) w in
  let view := λ it : item,
    (it !! "status", it !! "subscribed_at", it !! "updated_at") in
  (wf_table (table w) ∧ email_index (table w) "a@x.com" = [])
  ∧ view <$> email_index (table r1.2) "a@x.com"
    = [(Some (AStr "active"), Some (ANum 5001), Some (ANum 5001))]
  ∧ view <$> email_index (table r2.2) "a@x.com"
    = [(Some (AStr "inactive"), Some (ANum 5000), Some (ANum 5001))].
Proof.
  intros w r1 r2 view.
  assert (wf_table (table w)) as Hwf by compute_done.
  assert (email_index (table w) (email Demo.subscribe_a) = []) as Habs
    by compute_done.
  destruct (opposite_intents_in_order Demo.env Demo.subscribe_a
              Demo.unsubscribe_a w eq_refl Hwf Habs
              (Demo.env_calls_succeed _ 4)) as [[_ H1] [_ H2]].
  split; [by split|]. split.
  - etrans; [exact (f_equal (fmap view) H1)|]. compute_done.
  - etrans; [exact (f_equal (fmap view) H2)|]. compute_done.
Defined.

(** X12.  Subscribe, unsubscribe, subscribe again, for an email that the
    index does not know and with the store answering: the three intents,
    which need only agree on the email, leave exactly one record for it.
    The record is the one that the first intent created: it has the
    identifier drawn then, [subscribed_at] is the first clock reading, and
    [name], [ip_address] and [user_agent] are those of the first intent;
    [status] is [active] again and [updated_at] is the third reading. *)
Theorem reactivation_keeps_first_record (env : Env)
    (m1 m2 m3 : OperationMessage) (w : World) :
  email m2 = email m1 →
  email m3 = email m1 →
  wf_table (table w) →
  email_index (table w) (email m1) = [] →
  calls_succeed env w 6 →
  let r := (process_subscribe_operation env m1 ;;;
            process_unsubscribe_operation env m2 ;;;
            process_subscribe_operation env m3) w in
  r.1 = Ok tt
  ∧ ∃ sub : item,
      email_index (table r.2) (email m1) = [sub]
      ∧ sub !! "id" = Some (AStr (uuid4 env (drawn w)))
      ∧ sub !! "status" = Some (AStr "active")
      ∧ sub !! "subscribed_at" = Some (ANum (utcnow env (ticks w)))
      ∧ sub !! "updated_at" = Some (ANum (utcnow env (ticks w + 2)))
      ∧ sub !! "name" = Some (py_name (name m1))
      ∧ sub !! "ip_address" = Some (AStr (ip_address m1))
      ∧ sub !! "user_agent" = Some (AStr (user_agent m1)).
Proof.
  intros Hm2 Hm3 Hwf Habs Hok r. subst r. unfold bind.
  set (sid := uuid4 env (drawn w)).
  set (new := new_subscriber sid m1 (utcnow env (ticks w))).
  destruct (subscribe_absent_single env m1 w Hwf Habs) as
    (w1 & Hrun1 & Hwf1 & Ht1 & Hlen1 & Hidx1).
  { eapply calls_succeed_le; [|exact Hok]. lia. }
  fold sid new in Hidx1. rewrite Hrun1. rewrite <- Hm2 in Hidx1.
  destruct (unsubscribe_single env m2 w1 new (AStr sid) Hwf1 Hidx1 eq_refl)
    as (w2 & Hrun2 & Hwf2 & Ht2 & Hlen2 & Hidx2 & Hk2).
  { eapply calls_succeed_le;
      [|apply (calls_succeed_after env 2 4 w w1 Hok Hlen1)]. lia. }
  rewrite Hrun2. rewrite Hm2, <- Hm3 in Hidx2.
  destruct (subscribe_single env m3 w2 _ (AStr sid) Hwf2 Hidx2 Hk2)
    as (w3 & Hrun3 & _ & _ & _ & Hidx3 & _).
  { apply (calls_succeed_after env 4 2 w w2 Hok). lia. }
  rewrite Hrun3. split; [done|]. cbn [snd].
  eexists. split; [by rewrite <- Hm3|].
  rewrite Ht2, Ht1. replace (ticks w + 2) with (S (S (ticks w))) by lia.
  cbn [apply_sets foldl fst snd].
  rewrite lookup_insert_ne, lookup_insert_eq by done. cbn [default].
  rewrite decide_True by done. cbn [foldl fst snd].
  repeat split;
    by rewrite ?lookup_insert_eq, ?(lookup_insert_ne _ "updated_at"),
         ?lookup_insert_eq, ?(lookup_insert_ne _ "status"),
         ?(lookup_insert_ne _ "updated_at"), ?(lookup_insert_ne _ "status")
      by done.
Qed.

Lemma reactivation_keeps_first_record_witness :
  let w := Demo.world_of [Demo.other] in
  let m3 := {| operation := "subscribe"; email := "a@x.com";
               name := Some "Somebody Else"; ip_address := "8.8.8.8";
               user_agent := "other agent"; timestamp := 77 |} in
  let r := (process_subscribe_operation Demo.env Demo.subscribe_a ;;;
            process_unsubscribe_operation Demo.env Demo.unsubscribe_a ;;;
            process_subscribe_operation Demo.env m3) w in
  (wf_table (table w) ∧ email_index (table w) "a@x.com" = [])
  ∧ r.1 = Ok tt
  ∧ ∃ sub : item,
      email_index (table r.2) "a@x.com" = [sub]
      ∧ sub !! "id" = Some (AStr "uuid-0")
      ∧ sub !! "status" = Some (AStr "active")
      ∧ sub !! "subscribed_at" = Some (ANum 5000)
      ∧ sub !! "updated_at" = Some (ANum 5002)
      ∧ sub !! "name" = Some (AStr "A")
      ∧ sub !! "ip_address" = Some (AStr "1.1.1.1")
      ∧ sub !! "user_agent" = Some (AStr "UA").
Proof.
  intros w m3 r.
  assert (wf_table (table w)) as Hwf by compute_done.
  assert (email_index (table w) (email Demo.subscribe_a) = []) as Habs
    by compute_done.
  split; [by split|].
  exact (reactivation_keeps_first_record Demo.env Demo.subscribe_a
           Demo.unsubscribe_a m3 w eq_refl eq_refl Hwf Habs
           (Demo.env_calls_succeed _ 6)).
Defined.

(** X13.  [put_item] is called without a condition: when the identifier
    drawn for a new subscriber is the [id] of a record of the table, that
    record is replaced by the new one.  The table keeps its length, the
    old record is gone and the new record stands in its place. *)
Theorem subscribe_overwrites_on_id_collision (env : Env)
    (m : OperationMessage) (w : World) (old : item) :
  wf_table (table w) →
  email_index (table w) (email m) = [] →
  old ∈ table w →
  key_of old = Some (AStr (uuid4 env (drawn w))) →
  calls_succeed env w 2 →
  let new := new_subscriber (uuid4 env (drawn w)) m (utcnow env (ticks w)) in
  let r := process_subscribe_operation env m w in
  r.1 = Ok tt
  ∧ length (table r.2) = length (table w)
  ∧ new ∈ table r.2
  ∧ (old ∉ table r.2)
  ∧ ∀ it : item, it ∈ table w → it ≠ old → it ∈ table r.2.
Proof.
  intros Hwf Habs Hin Hk Hok new r. subst r.
  rewrite subscribe_absent_run by done. cbn [fst snd table with_table].
  set (k := AStr (uuid4 env (drawn w))) in *.
  assert (old ≠ new) as Hne.
  { intros ->. eapply email_index_nil_elem; [exact Habs|exact Hin|done]. }
  destruct Hwf as [_ Hnd]. clear Habs Hok.
  induction (table w) as [|x t IH]; [by apply elem_of_nil in Hin|].
  rewrite fmap_cons in Hnd. apply NoDup_cons in Hnd as [Hx Hnd].
  cbn [put_item_in].
  apply elem_of_cons in Hin as [<-|Hin].
  - rewrite decide_True by done. split; [done|]. split; [done|].
    split; [left|]. split.
    + intros Hold. apply elem_of_cons in Hold as [Heq|Hold]; [done|].
      apply Hx. by apply list_elem_of_fmap_2.
    + intros it Hit Hno. apply elem_of_cons in Hit as [->|Hit]; [done|].
      by right.
  - rewrite decide_False.
    2:{ intros Hkx. apply Hx. rewrite Hkx, <- Hk.
        by apply list_elem_of_fmap_2. }
    destruct (IH Hnd Hin) as (_ & Hlen & Hnew & Hold & Hrest).
    split; [done|]. split; [cbn; by rewrite Hlen|].
    split; [by right|]. split.
    + intros Hold'. apply elem_of_cons in Hold' as [->|Hold']; [|done].
      apply Hx. by apply list_elem_of_fmap_2.
    + intros it Hit Hno. apply elem_of_cons in Hit as [->|Hit]; [left|].
      right. by apply Hrest.
Qed.

Lemma subscribe_overwrites_on_id_collision_witness :
  let old := Demo.stored "uuid-0" "b@x.com" "active" 50 60 in
  let w := Demo.world_of [old] in
  let r := process_subscribe_operation Demo.env Demo.subscribe_a w in
  (wf_table (table w) ∧ email_index (table w) "a@x.com" = [])
  ∧ r.1 = Ok tt
  ∧ table r.2 = [new_subscriber "uuid-0" Demo.subscribe_a 5000].
Proof.
  intros old w r.
  assert (wf_table (table w)) as Hwf by compute_done.
  assert (email_index (table w) (email Demo.subscribe_a) = []) as Habs
    by compute_done.
  assert (old ∈ table w) as Hin by left.
  destruct (subscribe_overwrites_on_id_collision Demo.env Demo.subscribe_a
              w old Hwf Habs Hin eq_refl (Demo.env_calls_succeed _ 2))
    as (H1 & _).
  split; [by split|]. split; [exact H1|compute_done].
Defined.

(** ** What no intent changes *)

Lemma update_keeps_other_attributes (t : table_t) (it : item) k sets now :
  wf_table t → Some k ∈ key_of <$> t → sets ∈ engine_sets now → it ∈ t →
  ∃ it' : item,
    it' ∈ update_item_in k sets t
    ∧ ∀ a : string, a ≠ "status" → a ≠ "updated_at" → it' !! a = it !! a.
Proof.
  intros Hwf Hk Hsets Hin.
  rewrite update_item_in_present; [|apply Hwf|done].
  exists (update_if_key k sets it). split; [by apply list_elem_of_fmap_2|].
  intros a Ha1 Ha2. unfold update_if_key. case_decide; [|done].
  apply apply_sets_lookup_ne. by eapply engine_sets_attrs.
Qed.

(** X14.  Whatever the store does, one intent changes no attribute of an
    existing record other than [status] and [updated_at]: on a table with
    unique ids, and for a subscribe provided the identifier drawn is not
    yet an [id] of the table, every record is found again afterwards with
    the same [id], [email], [name], [subscribed_at], [ip_address] and
    [user_agent]. *)
Theorem intent_keeps_other_attributes (env : Env) (m : OperationMessage)
    (w : World) (it : item) :
  wf_table (table w) →
  it ∈ table w →
  (∃ it' : item,
     it' ∈ table (process_unsubscribe_operation env m w).2
     ∧ ∀ a : string, a ≠ "status" → a ≠ "updated_at" → it' !! a = it !! a)
  ∧ (Some (AStr (uuid4 env (drawn w))) ∉ key_of <$> table w →
     ∃ it' : item,
       it' ∈ table (process_subscribe_operation env m w).2
       ∧ ∀ a : string, a ≠ "status" → a ≠ "updated_at" → it' !! a = it !! a).
Proof.
  intros Hwf Hin.
  assert (∃ it' : item, it' ∈ table w
            ∧ ∀ a : string, a ≠ "status" → a ≠ "updated_at"
                → it' !! a = it !! a) as Hsame by (by exists it).
  split.
  - rewrite process_unsubscribe_operation_run.
    destruct (store_fault env (length (log w))); [done|].
    destruct (email_index (table w) (email m)) as [|sub rest] eqn:Hidx;
      [done|].
    destruct (key_of sub) as [k|] eqn:Hk; [|done].
    rewrite table_update_item_run.
    destruct (store_fault env _); [done|]. cbn [snd table with_table].
    destruct (email_index_head_elem _ _ _ _ Hidx) as [Hsub _].
    eapply update_keeps_other_attributes;
      [done|by eapply wf_table_key_elem| |done].
    unfold engine_sets. right; right; left.
  - intros Hfresh. rewrite process_subscribe_operation_run.
    destruct (store_fault env (length (log w))); [done|].
    destruct (email_index (table w) (email m)) as [|sub rest] eqn:Hidx.
    + erewrite table_put_item_run by reflexivity.
      destruct (store_fault env _); [done|]. cbn [snd table with_table].
      cbn [draw log_call tick table].
      rewrite put_item_in_fresh by done.
      exists it. split; [|done]. apply elem_of_app. by left.
    + destruct (key_of sub) as [k|] eqn:Hk; [|done].
      rewrite table_update_item_run.
      destruct (store_fault env _); [done|]. cbn [snd table with_table].
      destruct (email_index_head_elem _ _ _ _ Hidx) as [Hsub _].
      eapply update_keeps_other_attributes;
        [done|by eapply wf_table_key_elem| |done].
      unfold engine_sets. case_decide; [left|right; left].
Qed.

Lemma intent_keeps_other_attributes_witness :
  let w := Demo.world_of [Demo.other; Demo.active_a] in
  (wf_table (table w) ∧ Demo.active_a ∈ table w)
  ∧ ∃ it' : item,
      it' ∈ table (process_unsubscribe_operation
                     (Demo.env_failing_at 5) Demo.unsubscribe_a w).2
      ∧ it' !! "subscribed_at" = Some (ANum 100)
      ∧ it' !! "name" = Some (AStr "A").
Proof.
  intros w.
  assert (wf_table (table w)) as Hwf by compute_done.
  assert (Demo.active_a ∈ table w) as Hin by (right; left).
  destruct (intent_keeps_other_attributes (Demo.env_failing_at 5)
              Demo.unsubscribe_a w Demo.active_a Hwf Hin)
    as [(it' & Hit' & Hattrs) _].
  split; [by split|]. exists it'. split; [exact Hit'|]. split.
  - by rewrite Hattrs.
  - by rewrite Hattrs.
Defined.

(** ** The admin handlers *)

Section AdminTables.

Implicit Types (t : table_t) (k : attr) (it : item).

Lemma get_item_in_Some k t it :
  get_item_in k t = Some it → it ∈ t ∧ key_of it = Some k.
Proof.
  induction t as [|x t IH]; cbn [get_item_in]; [done|].
  case_decide as Hk.
  - intros [= ->]. split; [left|done].
  - intros Hget. destruct (IH Hget). split; [by right|done].
Qed.

Lemma get_item_in_None k t :
  get_item_in k t = None → Some k ∉ key_of <$> t.
Proof.
  induction t as [|x t IH]; cbn [get_item_in]; [intros _; apply not_elem_of_nil|].
  case_decide as Hk; [done|]. intros Hget. rewrite fmap_cons.
  apply not_elem_of_cons. split; [congruence|by apply IH].
Qed.

Lemma get_item_in_wf k t it :
  wf_table t → it ∈ t → key_of it = Some k → get_item_in k t = Some it.
Proof.
  intros [_ Hnd] Hin Hk.
  induction t as [|x t IH]; [by apply elem_of_nil in Hin|].
  rewrite fmap_cons in Hnd. apply NoDup_cons in Hnd as [Hx Hnd].
  cbn [get_item_in]. apply elem_of_cons in Hin as [<-|Hin].
  - by rewrite decide_True.
  - rewrite decide_False; [by apply IH|].
    intros Hkx. apply Hx. rewrite Hkx, <- Hk. by apply list_elem_of_fmap_2.
Qed.

Lemma get_item_in_update k sets t it :
  "id" ∉ sets.*1 → get_item_in k t = Some it →
  get_item_in k (update_item_in k sets t) = Some (apply_sets sets it).
Proof.
  intros Hid. induction t as [|x t IH]; cbn [get_item_in update_item_in];
    [done|].
  case_decide as Hk.
  - intros [= ->]. cbn [get_item_in].
    by rewrite decide_True by (by rewrite key_of_apply_sets).
  - intros Hget. cbn [get_item_in]. rewrite decide_False by done.
    by apply IH.
Qed.

Lemma get_item_in_put k (new : item) t :
  key_of new = Some k → get_item_in k (put_item_in k new t) = Some new.
Proof.
  intros Hnew. induction t as [|x t IH]; cbn [put_item_in get_item_in].
  - by rewrite decide_True.
  - case_decide as Hk; cbn [get_item_in].
    + by rewrite decide_True.
    + by rewrite decide_False.
Qed.

(** Deleting the record with key [k] from a table with unique ids. *)
Lemma delete_item_in_wf k t it :
  wf_table t → it ∈ t → key_of it = Some k →
  let t' := delete_item_in k t in
  wf_table t'
  ∧ S (length t') = length t
  ∧ (it ∉ t')
  ∧ get_item_in k t' = None
  ∧ (∀ x : item, x ∈ t → x ≠ it → x ∈ t')
  ∧ (∀ x : item, x ∈ t' → x ∈ t).
Proof.
  intros [Hall Hnd] Hin Hk.
  induction t as [|x t IH]; [by apply elem_of_nil in Hin|].
  rewrite fmap_cons in Hnd. apply NoDup_cons in Hnd as [Hx Hnd].
  apply Forall_cons in Hall as [Hxk Hall].
  cbn [delete_item_in].
  assert (∀ y : item, y ∈ t → key_of y ≠ key_of x) as Hother.
  { intros y Hy Heq. apply Hx. rewrite <- Heq. by apply list_elem_of_fmap_2. }
  apply elem_of_cons in Hin as [<-|Hin].
  - rewrite decide_True by done. cbn zeta.
    split; [by split|]. split; [done|]. split.
    { intros Hit. by apply (Hother it Hit). }
    split.
    { destruct (get_item_in k t) as [y|] eqn:Hget; [|done].
      apply get_item_in_Some in Hget as [Hy Hky].
      destruct (Hother y Hy). congruence. }
    split.
    + intros y Hy Hne. apply elem_of_cons in Hy as [->|Hy]; done.
    + intros y Hy. by right.
  - assert (key_of x ≠ Some k) as Hxne.
    { intros Heq. apply (Hother it Hin). congruence. }
    rewrite decide_False by done. cbn zeta.
    destruct (IH Hall Hnd Hin) as ([Hall' Hnd'] & Hlen & Hnot & Hget & Hin' & Hsub).
    split.
    { split; [by constructor|]. rewrite fmap_cons. apply NoDup_cons.
      split; [|done]. intros Hxin.
      apply list_elem_of_fmap in Hxin as (y & Hy1 & Hy2).
      apply (Hother y); [by apply Hsub|done]. }
    split; [cbn; by rewrite Hlen|]. split.
    { intros Hit. apply elem_of_cons in Hit as [->|Hit]; [|done].
      by apply (Hother x Hin). }
    split; [cbn [get_item_in]; by rewrite decide_False|]. split.
    + intros y Hy Hne. apply elem_of_cons in Hy as [->|Hy]; [left|].
      right. by apply Hin'.
    + intros y Hy. apply elem_of_cons in Hy as [->|Hy]; [left|].
      right. by apply Hsub.
Qed.

Lemma email_index_delete k t it (e : string) :
  wf_table t → email_index t e = [it] → key_of it = Some k →
  email_index (delete_item_in k t) e = [].
Proof.
  intros Hwf Hidx Hk.
  destruct (email_index_head_elem _ _ _ _ Hidx) as [Hin _].
  destruct (delete_item_in_wf k t it Hwf Hin Hk) as (_ & _ & Hnot & _ & _ & Hsub).
  destruct (email_index (delete_item_in k t) e) as [|x l] eqn:Hidx'; [done|].
  destruct (email_index_head_elem _ _ _ _ Hidx') as [Hx Hmail].
  assert (x ∈ email_index t e) as Hx'
    by (apply list_elem_of_filter; split; [done|by apply Hsub]).
  rewrite Hidx in Hx'. apply list_elem_of_singleton in Hx'. by subst.
Qed.

End AdminTables.

Section AdminRuns.

Variable aenv : AdminEnv.

Lemma admin_calls_succeed_now aw n :
  admin_calls_succeed aenv aw (S n) →
  admin_fault aenv (length (admin_log aw)) = None.
Proof. intros H. rewrite <- (Nat.add_0_r (length _)). apply H. lia. Qed.

Lemma item_to_subscriber_pure it aw :
  item_to_subscriber aenv it aw = (subscriber_of aenv it, aw).
Proof.
  unfold subscriber_of, item_to_subscriber, subscriber_args, abind,
    admin_getitem, py_int, aret, araise.
  destruct (it !! "id"); [|done]. destruct (it !! "email"); [|done].
  destruct (default (ANum 0) (it !! "subscribed_at")) as [s1|n1|];
    try (destruct (int_other aenv _); [|done]);
    destruct (default (ANum 0) (it !! "updated_at")) as [s2|n2|];
    try (destruct (int_other aenv _); [|done]); done.
Qed.

Lemma get_subscriber_by_id_run sid aw :
  admin_fault aenv (length (admin_log aw)) = None →
  get_subscriber_by_id aenv sid aw
  = match get_item_in (AStr sid) (admin_table aw) with
    | None => (Ok None, admin_logged (GetItem (AStr sid)) aw)
    | Some it =>
        match subscriber_of aenv it with
        | Ok s => (Ok (Some s), admin_logged (GetItem (AStr sid)) aw)
        | Raise e => (Raise e, admin_logged (GetItem (AStr sid)) aw)
        end
    end.
Proof.
  intros Hf.
  unfold get_subscriber_by_id, reraising, admin_get_item, admin_call_begin,
    abind.
  rewrite Hf. cbn.
  destruct (get_item_in (AStr sid) (admin_table aw)) as [it|]; [|done].
  rewrite item_to_subscriber_pure.
  by destruct (subscriber_of aenv it).
Qed.

Lemma delete_subscriber_run sid aw :
  admin_calls_succeed aenv aw 2 →
  let k := AStr sid in
  delete_subscriber aenv sid aw
  = match get_item_in k (admin_table aw) with
    | None => (Ok false, admin_logged (GetItem k) aw)
    | Some it =>
        match subscriber_of aenv it with
        | Ok s =>
            (Ok true,
             {| admin_table := delete_item_in k (admin_table aw);
                admin_ticks := admin_ticks aw;
                admin_log := admin_log aw ++ [GetItem k; DeleteItem k] |})
        | Raise e => (Raise e, admin_logged (GetItem k) aw)
        end
    end.
Proof.
  intros Hok k.
  unfold delete_subscriber, reraising, abind at 1.
  rewrite get_subscriber_by_id_run by (by eapply admin_calls_succeed_now).
  fold k.
  destruct (get_item_in k (admin_table aw)) as [it|]; [|done].
  destruct (subscriber_of aenv it) as [s|e]; [|done].
  unfold admin_delete_item, admin_call_begin, abind. cbn.
  rewrite length_app. cbn. rewrite (Hok 1) by lia.
  by rewrite <- app_assoc.
Qed.

Lemma update_subscriber_email_run sid new_email aw :
  admin_calls_succeed aenv aw 2 →
  let k := AStr sid in
  let sets := [("email", AStr new_email);
               ("updated_at", ANum (time_time aenv (admin_ticks aw)))] in
  update_subscriber_email aenv sid new_email aw
  = match get_item_in k (admin_table aw) with
    | None => (Ok None, admin_logged (GetItem k) aw)
    | Some it =>
        match subscriber_of aenv it with
        | Raise e => (Raise e, admin_logged (GetItem k) aw)
        | Ok _ =>
            let aw2 :=
              {| admin_table := update_item_in k sets (admin_table aw);
                 admin_ticks := S (admin_ticks aw);
                 admin_log :=
                   admin_log aw ++ [GetItem k; UpdateItemAllNew k sets] |} in
            match subscriber_of aenv (apply_sets sets it) with
            | Ok s' => (Ok (Some s'), aw2)
            | Raise e => (Raise e, aw2)
            end
        end
    end.
Proof.
  intros Hok k sets.
  unfold update_subscriber_email, reraising, abind at 1.
  rewrite get_subscriber_by_id_run by (by eapply admin_calls_succeed_now).
  fold k.
  destruct (get_item_in k (admin_table aw)) as [it|] eqn:Hget; [|done].
  destruct (subscriber_of aenv it) as [s|e]; [|done].
  unfold admin_time, admin_update_item, admin_call_begin, abind. cbn.
  rewrite length_app. cbn. rewrite (Hok 1) by lia. fold sets.
  rewrite (get_item_in_update k sets _ it) by (done || not_assigned).
  rewrite item_to_subscriber_pure, <- app_assoc.
  change (<["updated_at":=ANum (time_time aenv (admin_ticks aw))]>
            (<["email":=AStr new_email]> it)) with (apply_sets sets it).
  by destruct (subscriber_of aenv (apply_sets sets it)).
Qed.

End AdminRuns.

Lemma two_distinct_elements {A} (l : list A) (x y : A) :
  x ∈ l → y ∈ l → x ≠ y → 2 ≤ length l.
Proof.
  intros Hx Hy Hne. destruct l as [|a [|b l]]; cbn; try lia.
  - by apply elem_of_nil in Hx.
  - apply list_elem_of_singleton in Hx, Hy. congruence.
Qed.

(** X15.  [delete_subscriber] on the id of a record that the table holds
    and that [item_to_subscriber] accepts, with both calls answered,
    returns [True] after one [get_item] and one [delete_item]: exactly
    that record is gone, the table is one shorter, its ids are still
    unique and every other record is still there. *)
Theorem delete_subscriber_removes_record (aenv : AdminEnv) (sid : string)
    (aw : AdminWorld) (it : item) (s : Subscriber.t) :
  wf_table (admin_table aw) →
  it ∈ admin_table aw →
  key_of it = Some (AStr sid) →
  subscriber_of aenv it = Ok s →
  admin_calls_succeed aenv aw 2 →
  let r := delete_subscriber aenv sid aw in
  r.1 = Ok true
  ∧ admin_log r.2
    = admin_log aw ++ [GetItem (AStr sid); DeleteItem (AStr sid)]
  ∧ wf_table (admin_table r.2)
  ∧ S (length (admin_table r.2)) = length (admin_table aw)
  ∧ (it ∉ admin_table r.2)
  ∧ get_item_in (AStr sid) (admin_table r.2) = None
  ∧ ∀ x : item, x ∈ admin_table aw → x ≠ it → x ∈ admin_table r.2.
Proof.
  intros Hwf Hin Hk Hread Hok r. subst r.
  rewrite delete_subscriber_run by done. cbn zeta.
  rewrite (get_item_in_wf _ _ it Hwf Hin Hk), Hread. cbn [fst snd].
  destruct (delete_item_in_wf (AStr sid) _ it Hwf Hin Hk)
    as (Hwf' & Hlen & Hnot & Hget & Hrest & _).
  cbn [admin_table admin_log].
  split; [done|]. split; [done|]. split; [exact Hwf'|].
  split; [exact Hlen|]. split; [exact Hnot|]. split; [exact Hget|exact Hrest].
Qed.

Lemma delete_subscriber_removes_record_witness :
  let aw := admin_world_of [Demo.other; Demo.active_a] in
  let r := delete_subscriber Demo.aenv "id-a" aw in
  (wf_table (admin_table aw)
   ∧ subscriber_of Demo.aenv Demo.active_a
     = Ok (Demo.subscriber "id-a" "a@x.com" "active" 100 200))
  ∧ r.1 = Ok true
  ∧ admin_table r.2 = [Demo.other].
Proof.
  intros aw r.
  assert (wf_table (admin_table aw)) as Hwf by compute_done.
  assert (Demo.active_a ∈ admin_table aw) as Hin by (right; left).
  assert (subscriber_of Demo.aenv Demo.active_a
          = Ok (Demo.subscriber "id-a" "a@x.com" "active" 100 200)) as Hread
    by compute_done.
  destruct (delete_subscriber_removes_record Demo.aenv "id-a" aw
              Demo.active_a _ Hwf Hin eq_refl Hread
              (Demo.aenv_calls_succeed _ 2)) as (H1 & _).
  split; [by split|]. split; [exact H1|compute_done].
Defined.

(** X16.  [delete_subscriber] deletes nothing when it cannot build the
    [Subscriber] first.  With the [get_item] answered, an id that the
    table does not hold gives [False], and a record that
    [item_to_subscriber] rejects makes the function raise that exception;
    in both cases the table is as before and [delete_item] is not
    called. *)
Theorem delete_subscriber_without_subscriber (aenv : AdminEnv) (sid : string)
    (aw : AdminWorld) :
  admin_calls_succeed aenv aw 2 →
  let k := AStr sid in
  let r := delete_subscriber aenv sid aw in
  (get_item_in k (admin_table aw) = None →
     r = (Ok false, admin_logged (GetItem k) aw))
  ∧ (∀ (it : item) (e : exn),
       get_item_in k (admin_table aw) = Some it →
       subscriber_of aenv it = Raise e →
       r = (Raise e, admin_logged (GetItem k) aw)).
Proof.
  intros Hok k r. subst r. rewrite delete_subscriber_run by done.
  cbn zeta. fold k. split.
  - by intros ->.
  - intros it e -> ->. done.
Qed.

Lemma delete_subscriber_without_subscriber_witness :
  let nameless :=
    new_subscriber "uuid-0"
      {| operation := "subscribe"; email := "a@x.com"; name := None;
         ip_address := "1.1.1.1"; user_agent := "UA"; timestamp := 1000 |}
      5000 in
  let aw := admin_world_of [Demo.other; nameless] in
  delete_subscriber Demo.aenv "id-z" aw
  = (Ok false, admin_logged (GetItem (AStr "id-z")) aw)
  ∧ delete_subscriber Demo.aenv "uuid-0" aw
    = (Raise (ValidationError "1 validation error for Subscriber"),
       admin_logged (GetItem (AStr "uuid-0")) aw).
Proof.
  intros nameless aw. split.
  - destruct (delete_subscriber_without_subscriber Demo.aenv "id-z" aw
                (Demo.aenv_calls_succeed _ 2)) as [Hnone _].
    apply Hnone. compute_done.
  - destruct (delete_subscriber_without_subscriber Demo.aenv "uuid-0" aw
                (Demo.aenv_calls_succeed _ 2)) as [_ Hbad].
    apply (Hbad nameless); compute_done.
Defined.

(** X17.  A hard delete makes the email unknown to the engine again.
    When the only record of an email is removed by [delete_subscriber],
    the next subscribe intent for that email creates a new record: new
    identifier, [subscribed_at] and [updated_at] the clock reading of that
    intent, and nothing of the removed record is kept. *)
Theorem deleted_email_subscribes_as_new (env : Env) (aenv : AdminEnv)
    (m : OperationMessage) (w : World) (sid : string) (it : item)
    (s : Subscriber.t) :
  wf_table (table w) →
  email_index (table w) (email m) = [it] →
  key_of it = Some (AStr sid) →
  subscriber_of aenv it = Ok s →
  admin_calls_succeed aenv (admin_world_of (table w)) 2 →
  calls_succeed env w 2 →
  let d := delete_subscriber aenv sid (admin_world_of (table w)) in
  let r := process_subscribe_operation env m
             (with_table (admin_table d.2) w) in
  d.1 = Ok true
  ∧ email_index (admin_table d.2) (email m) = []
  ∧ r.1 = Ok tt
  ∧ email_index (table r.2) (email m)
    = [new_subscriber (uuid4 env (drawn w)) m (utcnow env (ticks w))].
Proof.
  intros Hwf Hidx Hk Hread Haok Hok d r.
  destruct (email_index_head_elem _ _ _ _ Hidx) as [Hin _].
  assert (d = (Ok true,
               {| admin_table := delete_item_in (AStr sid) (table w);
                  admin_ticks := 0;
                  admin_log := [GetItem (AStr sid); DeleteItem (AStr sid)] |}))
    as Hd.
  { subst d. rewrite delete_subscriber_run by done. cbn zeta.
    cbn [admin_world_of admin_table].
    by rewrite (get_item_in_wf _ _ it Hwf Hin Hk), Hread. }
  assert (email_index (admin_table d.2) (email m) = []) as Habs.
  { rewrite Hd. cbn. by eapply email_index_delete. }
  split; [by rewrite Hd|]. split; [exact Habs|].
  subst r. rewrite subscribe_absent_run by done. cbn [fst snd].
  split; [done|]. cbn. by apply email_index_put_absent.
Qed.

Lemma deleted_email_subscribes_as_new_witness :
  let w := Demo.world_of [Demo.other; Demo.inactive_a] in
  let d := delete_subscriber Demo.aenv "id-a" (admin_world_of (table w)) in
  let r := process_subscribe_operation Demo.env Demo.subscribe_a
             (with_table (admin_table d.2) w) in
  (wf_table (table w)
   ∧ email_index (table w) "a@x.com" = [Demo.inactive_a])
  ∧ d.1 = Ok true
  ∧ table r.2 = [Demo.other; new_subscriber "uuid-0" Demo.subscribe_a 5000].
Proof.
  intros w d r.
  assert (wf_table (table w)) as Hwf by compute_done.
  assert (email_index (table w) (email Demo.subscribe_a) = [Demo.inactive_a])
    as Hidx by compute_done.
  assert (subscriber_of Demo.aenv Demo.inactive_a
          = Ok (Demo.subscriber "id-a" "a@x.com" "inactive" 100 200))
    as Hread by compute_done.
  destruct (deleted_email_subscribes_as_new Demo.env Demo.aenv
              Demo.subscribe_a w "id-a" Demo.inactive_a _ Hwf Hidx eq_refl
              Hread (Demo.aenv_calls_succeed _ 2)
              (Demo.env_calls_succeed _ 2)) as (H1 & _).
  split; [by split|]. split; [exact H1|compute_done].
Defined.

(** X18.  [update_subscriber_email] does not look the new email up.  On a
    table with unique ids, for a record that [item_to_subscriber] accepts
    before and after the change and with both calls answered, it sets
    [email] and [updated_at] of that record and of no other; when another
    record already carries the new email, the email index then returns
    both, so the table no longer has one record per email. *)
Theorem update_subscriber_email_can_duplicate (aenv : AdminEnv)
    (sid new_email : string) (aw : AdminWorld) (it other : item)
    (s s' : Subscriber.t) :
  let now := time_time aenv (admin_ticks aw) in
  let sets := [("email", AStr new_email); ("updated_at", ANum now)] in
  wf_table (admin_table aw) →
  it ∈ admin_table aw →
  key_of it = Some (AStr sid) →
  subscriber_of aenv it = Ok s →
  subscriber_of aenv (apply_sets sets it) = Ok s' →
  other ∈ admin_table aw →
  other ≠ it →
  other !! "email" = Some (AStr new_email) →
  admin_calls_succeed aenv aw 2 →
  let r := update_subscriber_email aenv sid new_email aw in
  r.1 = Ok (Some s')
  ∧ admin_table r.2 = update_if_key (AStr sid) sets <$> admin_table aw
  ∧ wf_table (admin_table r.2)
  ∧ apply_sets sets it ∈ email_index (admin_table r.2) new_email
  ∧ other ∈ email_index (admin_table r.2) new_email
  ∧ ¬ unique_emails (admin_table r.2).
Proof.
  intros now sets Hwf Hin Hk Hread Hread' Hother Hne Hmail Hok r.
  assert (r = (Ok (Some s'),
               {| admin_table := update_item_in (AStr sid) sets (admin_table aw);
                  admin_ticks := S (admin_ticks aw);
                  admin_log := admin_log aw
                               ++ [GetItem (AStr sid);
                                   UpdateItemAllNew (AStr sid) sets] |}))
    as Hr.
  { subst r. rewrite update_subscriber_email_run by done. cbn zeta.
    fold now sets.
    by rewrite (get_item_in_wf _ _ it Hwf Hin Hk), Hread, Hread'. }
  destruct (update_on_wf_table (admin_table aw) it (AStr sid) sets Hwf Hin Hk)
    as (Htab & _ & Hnew & Hrest).
  destruct (Hrest other Hother Hne) as [_ Hother'].
  assert ("id" ∉ sets.*1) as Hid by not_assigned.
  assert (apply_sets sets it ∈ email_index
            (update_item_in (AStr sid) sets (admin_table aw)) new_email)
    as H1.
  { apply list_elem_of_filter. split; [|done].
    subst sets. cbn. rewrite lookup_insert_ne by done.
    apply lookup_insert_eq. }
  assert (other ∈ email_index
            (update_item_in (AStr sid) sets (admin_table aw)) new_email)
    as H2 by (by apply list_elem_of_filter).
  rewrite Hr. cbn [fst snd admin_table].
  split; [done|]. split; [exact Htab|]. split.
  { apply wf_table_update; [exact Hid|exact Hwf|].
    eapply wf_table_key_elem; [exact Hin|exact Hk]. }
  split; [exact H1|]. split; [exact H2|].
  intros Huniq. specialize (Huniq new_email).
  assert (apply_sets sets it ≠ other) as Hdiff.
  { intros Heq. apply Hne.
    eapply (NoDup_fmap_elem_inj key_of); [apply Hwf|done|done|].
    rewrite <- Heq. by rewrite key_of_apply_sets. }
  pose proof (two_distinct_elements _ _ _ H1 H2 Hdiff). lia.
Qed.

Lemma update_subscriber_email_can_duplicate_witness :
  let aw := admin_world_of [Demo.other; Demo.active_a] in
  let r := update_subscriber_email Demo.aenv "id-a" "b@x.com" aw in
  (wf_table (admin_table aw) ∧ unique_emails (admin_table aw))
  ∧ r.1 = Ok (Some (Demo.subscriber "id-a" "b@x.com" "active" 100 9000))
  ∧ email_index (admin_table r.2) "b@x.com"
    = [Demo.other; Demo.stored "id-a" "b@x.com" "active" 100 9000]
  ∧ ¬ unique_emails (admin_table r.2).
Proof.
  intros aw r.
  assert (wf_table (admin_table aw)) as Hwf by compute_done.
  assert (unique_emails (admin_table aw)) as Huniq.
  { intros e. subst aw. unfold email_index, admin_world_of.
    cbn [admin_table]. rewrite filter_cons. case_decide as He.
    - rewrite filter_cons_False; [cbn; lia|].
      intros He'. vm_compute in He, He'. congruence.
    - etrans; [apply length_filter|]. cbn. lia. }
  assert (Demo.active_a ∈ admin_table aw) as Hin by (right; left).
  assert (Demo.other ∈ admin_table aw) as Hother by left.
  assert (Demo.other ≠ Demo.active_a) as Hne by compute_done.
  assert (subscriber_of Demo.aenv Demo.active_a
          = Ok (Demo.subscriber "id-a" "a@x.com" "active" 100 200)) as Hread
    by compute_done.
  assert (subscriber_of Demo.aenv
            (apply_sets [("email", AStr "b@x.com"); ("updated_at", ANum 9000)]
               Demo.active_a)
          = Ok (Demo.subscriber "id-a" "b@x.com" "active" 100 9000))
    as Hread' by compute_done.
  destruct (update_subscriber_email_can_duplicate Demo.aenv "id-a" "b@x.com"
              aw Demo.active_a Demo.other _ _
              Hwf Hin eq_refl Hread Hread' Hother Hne eq_refl
              (Demo.aenv_calls_succeed _ 2))
    as (H1 & _ & _ & _ & _ & H6).
  split; [by split|]. split; [exact H1|]. split; [compute_done|exact H6].
Defined.

(** X19.  A record that the engine has just created is found by
    [get_subscriber_by_id] under the identifier drawn for it, and the
    [Subscriber] constructor is handed exactly what the engine stored:
    the intent's email, [status = active], both timestamps equal to the
    engine's clock reading, the intent's provenance, and as [name] the
    intent's name or, when the intent has none, NULL. *)
Theorem created_record_read_by_admin (env : Env) (aenv : AdminEnv)
    (m : OperationMessage) (w : World) :
  email_index (table w) (email m) = [] →
  calls_succeed env w 2 →
  admin_fault aenv 0 = None →
  let sid := uuid4 env (drawn w) in
  let now := utcnow env (ticks w) in
  let r := process_subscribe_operation env m w in
  let args :=
    {| SubscriberArgs.id := AStr sid;
       SubscriberArgs.email := AStr (email m);
       SubscriberArgs.name := py_name (name m);
       SubscriberArgs.status := AStr "active";
       SubscriberArgs.subscribed_at := now;
       SubscriberArgs.updated_at := now;
       SubscriberArgs.ip_address := AStr (ip_address m);
       SubscriberArgs.user_agent := AStr (user_agent m) |} in
  (get_subscriber_by_id aenv sid (admin_world_of (table r.2))).1
  = match validate_subscriber aenv args with
    | Ok s => Ok (Some s)
    | Raise e => Raise e
    end.
Proof.
  intros Habs Hok Hf sid now r args. subst r.
  rewrite subscribe_absent_run by done. cbn [fst snd table with_table].
  rewrite get_subscriber_by_id_run by done.
  cbn [admin_world_of admin_table]. fold sid now.
  rewrite get_item_in_put by done.
  assert (subscriber_of aenv (new_subscriber sid m now)
          = validate_subscriber aenv args) as ->; [done|].
  by destruct (validate_subscriber aenv args).
Qed.

Lemma created_record_read_by_admin_witness :
  let nameless :=
    {| operation := "subscribe"; email := "a@x.com"; name := None;
       ip_address := "1.1.1.1"; user_agent := "UA"; timestamp := 1000 |} in
  let w := Demo.world_of [Demo.other] in
  email_index (table w) "a@x.com" = []
  ∧ (get_subscriber_by_id Demo.aenv "uuid-0"
       (admin_world_of
          (table (process_subscribe_operation Demo.env Demo.subscribe_a w).2))).1
    = Ok (Some {| Subscriber.id := "uuid-0"; Subscriber.email := "a@x.com";
                  Subscriber.name := "A"; Subscriber.status := "active";
                  Subscriber.subscribed_at := 5000;
                  Subscriber.updated_at := 5000;
                  Subscriber.ip_address := "1.1.1.1";
                  Subscriber.user_agent := "UA" |})
  ∧ (get_subscriber_by_id Demo.aenv "uuid-0"
       (admin_world_of
          (table (process_subscribe_operation Demo.env nameless w).2))).1
    = Raise (ValidationError "1 validation error for Subscriber").
Proof.
  intros nameless w.
  assert (email_index (table w) "a@x.com" = []) as Habs by compute_done.
  split; [exact Habs|]. split.
  - exact (created_record_read_by_admin Demo.env Demo.aenv Demo.subscribe_a w
             Habs (Demo.env_calls_succeed _ 2) eq_refl).
  - exact (created_record_read_by_admin Demo.env Demo.aenv nameless w
             Habs (Demo.env_calls_succeed _ 2) eq_refl).
Defined.
